(** * Activation and entitlement core of the dictionary server (server.py)

    A shallow embedding of the request handlers of [server.py] over an
    explicit store, and the properties of the activation state machine.

    Modelling conventions.
    - The two SQLite tables [codes] and [devices] are finite maps keyed by
      their TEXT primary keys; a nullable column is an [option].
    - A JSON request body is a finite map from field names to Python values;
      [request.json.get(k)] yields [PyNone] for an absent field.  Field
      values are JSON null or JSON strings (what main.py and stress_test.py
      send); numbers, arrays and objects as field values are not modelled.
    - A UTC [datetime] is the integer number of microseconds since the
      epoch.  The ISO-8601 text kept in the table and its parse by
      [datetime.fromisoformat] are inverse to each other and are left out.
      [datetime.now] is an argument [now] of every handler that reads it.
    - Every handler is a function from the store to a response and the
      store it leaves behind. *)

From stdpp Require Import base option list gmap strings sorting.

Local Open Scope Z_scope.

(** ** Python values and their coercions *)

Inductive pyval : Type :=
| PyNone
| PyStr (s : string).

(** [str(v)] *)
Definition py_str (v : pyval) : string :=
  match v with
  | PyNone => "None"
  | PyStr s => s
  end.

(** truth value of a [str]: every string but the empty one *)
Definition str_truthy (s : string) : bool :=
  match s with
  | EmptyString => false
  | String _ _ => true
  end.

(** truth value of a Python value, as tested by [not v] and [all([..])] *)
Definition py_truthy (v : pyval) : bool :=
  match v with
  | PyNone => false
  | PyStr s => str_truthy s
  end.

(** truth value of a nullable TEXT column read back from a row *)
Definition opt_truthy (o : option string) : bool :=
  match o with
  | None => false
  | Some s => str_truthy s
  end.

(** [request.json.get(k)] *)
Definition json_get (body : gmap string pyval) (k : string) : pyval :=
  default PyNone (body !! k).

(** ** Configuration (config.json) *)

Record config : Type := {
  (** plan type to number of days, the source of [CARD_DURATIONS] *)
  CARD_DURATIONS : gmap string Z;
  GENERATE_CODE_LIMIT : Z
}.

(** microseconds in [timedelta(days=1)] *)
Definition day_us : Z := 86400000000.

(** [CARD_DURATIONS.get(card_type)] followed by [if not duration]: a plan
    that is missing, or whose [timedelta] is zero, gives no duration. *)
Definition plan_duration (cfg : config) (card_type : string) : option Z :=
  match CARD_DURATIONS cfg !! card_type with
  | None => None
  | Some days => if bool_decide (days = 0) then None else Some (days * day_us)
  end.

(** the configuration [load_config] writes when config.json is missing *)
Definition default_config : config := {|
  CARD_DURATIONS :=
    <["monthly" := 30]> (<["quarterly" := 90]> (<["yearly" := 365]> (<["trial" := 7]> ∅)));
  GENERATE_CODE_LIMIT := 5000
|}.

(** ** The store: tables [codes] and [devices] *)

Record code_row : Type := {
  c_type : string;
  used_by : option string
}.

Record device_row : Type := {
  activation_code : string;
  card_type : string;
  activated_at : Z;
  expires_at : Z
}.

Record db : Type := {
  codes : gmap string code_row;
  devices : gmap string device_row
}.

Definition empty_db : db := {| codes := ∅; devices := ∅ |}.

(** [UPDATE codes SET used_by = v WHERE code = c]: only an existing row
    changes. *)
Definition set_used_by (v : option string) (c : string)
    (cs : gmap string code_row) : gmap string code_row :=
  alter (λ r, {| c_type := c_type r; used_by := v |}) c cs.

(** [INSERT INTO devices ...]: a second row for the same primary key is
    refused ([sqlite3.IntegrityError]). *)
Definition insert_device (m : string) (row : device_row)
    (ds : gmap string device_row) : option (gmap string device_row) :=
  match ds !! m with
  | Some _ => None
  | None => Some (<[m := row]> ds)
  end.

(** ** check_status *)

Inductive status_response : Type :=
| S_BadRequest
| S_Unactivated
| S_Activated (expires : Z) (plan : string)
| S_Expired (expires : Z).

Definition check_status (body : gmap string pyval) (now : Z) (s : db)
    : status_response * db :=
  let machine_id := py_str (json_get body "machine_id") in
  if negb (str_truthy machine_id) then (S_BadRequest, s) else
  match devices s !! machine_id with
  | None => (S_Unactivated, s)
  | Some device_info =>
      if bool_decide (expires_at device_info > now)
      then (S_Activated (expires_at device_info) (card_type device_info), s)
      else (S_Expired (expires_at device_info), s)
  end.

(** ** require_activated_device *)

Inductive guard_result : Type :=
| G_BadRequest
| G_Unauthorized
| G_Expired
| G_Pass.

Definition require_activated_device (body : gmap string pyval) (now : Z)
    (s : db) : guard_result :=
  let machine_id := py_str (json_get body "machine_id") in
  if negb (str_truthy machine_id) then G_BadRequest else
  match devices s !! machine_id with
  | None => G_Unauthorized
  | Some device_info =>
      if bool_decide (expires_at device_info <= now) then G_Expired else G_Pass
  end.

(** ** activate *)

Inductive activate_response : Type :=
| A_BadRequest
| A_InvalidCode
| A_AlreadyBound
| A_UnknownPlan
| A_StorageError
| A_Ok (expires : Z).

Definition activate (cfg : config) (body : gmap string pyval) (now : Z)
    (s : db) : activate_response * db :=
  let machine_id := py_str (json_get body "machine_id") in
  let code_str := json_get body "code" in
  if negb (str_truthy machine_id && py_truthy code_str) then (A_BadRequest, s) else
  match code_str with
  | PyNone => (A_BadRequest, s)
  | PyStr code =>
      match codes s !! code with
      | None => (A_InvalidCode, s)
      | Some code_info =>
          if opt_truthy (used_by code_info) then (A_InvalidCode, s) else
          match devices s !! machine_id with
          | Some _ => (A_AlreadyBound, s)
          | None =>
              match plan_duration cfg (c_type code_info) with
              | None => (A_UnknownPlan, s)
              | Some duration =>
                  let expires := now + duration in
                  let codes' := set_used_by (Some machine_id) code (codes s) in
                  let row := {| activation_code := code;
                                card_type := c_type code_info;
                                activated_at := now;
                                expires_at := expires |} in
                  match insert_device machine_id row (devices s) with
                  | None => (A_StorageError, s)
                  | Some devices' =>
                      (A_Ok expires, {| codes := codes'; devices := devices' |})
                  end
              end
          end
      end
  end.

(** ** revoke_authorization *)

Inductive revoke_response : Type :=
| R_Unauthorized
| R_BadRequest
| R_NotFound
| R_Ok.

Definition revoke_authorization (logged_in : bool) (body : gmap string pyval)
    (s : db) : revoke_response * db :=
  if negb logged_in then (R_Unauthorized, s) else
  let machine_id := json_get body "machine_id" in
  if negb (py_truthy machine_id) then (R_BadRequest, s) else
  match machine_id with
  | PyNone => (R_BadRequest, s)
  | PyStr m =>
      match devices s !! m with
      | None => (R_NotFound, s)
      | Some device_info =>
          let code_to_reset := activation_code device_info in
          let devices' := delete m (devices s) in
          let codes' :=
            if str_truthy code_to_reset
            then set_used_by None code_to_reset (codes s)
            else codes s in
          (R_Ok, {| codes := codes'; devices := devices' |})
      end
  end.

(** ** manage (code generation) *)

Inductive manage_response : Type :=
| M_LoginRedirect
| M_Form
| M_Generated
| M_DbError.

(** [executemany("INSERT INTO codes ...", new_codes)]: rows go in one by
    one; a token that is already a primary key aborts the statement. *)
Fixpoint insert_codes (plan : string) (tokens : list string)
    (cs : gmap string code_row) : option (gmap string code_row) :=
  match tokens with
  | [] => Some cs
  | t :: ts =>
      match cs !! t with
      | Some _ => None
      | None => insert_codes plan ts (<[t := {| c_type := plan; used_by := None |}]> cs)
      end
  end.

(** [form.validate_on_submit()] of [GenerateCodesForm]: the quantity lies in
    [1 .. GENERATE_CODE_LIMIT] and the card type is one of the keys of
    [CARD_DURATIONS]. *)
Definition generate_form_valid (cfg : config) (quantity : Z) (plan : string) : bool :=
  bool_decide (1 <= quantity) && bool_decide (quantity <= GENERATE_CODE_LIMIT cfg)
  && bool_decide (is_Some (CARD_DURATIONS cfg !! plan)).

(** The handler draws [quantity] tokens from [uuid.uuid4()]; [tokens] is the
    list of the draws, so that [quantity] is its length.  A failed insert
    leaves the connection block by an exception, which rolls back. *)
Definition manage (cfg : config) (logged_in : bool) (plan : string)
    (tokens : list string) (s : db) : manage_response * db :=
  if negb logged_in then (M_LoginRedirect, s) else
  if negb (generate_form_valid cfg (Z.of_nat (length tokens)) plan) then (M_Form, s) else
  match insert_codes plan tokens (codes s) with
  | None => (M_DbError, s)
  | Some codes' => (M_Generated, {| codes := codes'; devices := devices s |})
  end.

(** ** States reachable by the mutating handlers

    Handlers run one after another, each on the store the previous one
    left.  [check_status] and the guard write nothing and need no rule. *)

Inductive reachable (cfg : config) : db → Prop :=
| reach_empty : reachable cfg empty_db
| reach_activate s body now :
    reachable cfg s → reachable cfg (activate cfg body now s).2
| reach_revoke s logged_in body :
    reachable cfg s → reachable cfg (revoke_authorization logged_in body s).2
| reach_manage s logged_in plan tokens :
    reachable cfg s → reachable cfg (manage cfg logged_in plan tokens s).2.

(** Serial redemption: the requests of the list run one after another, all
    for the same code; each carries its device id and its clock reading. *)
Fixpoint activate_each (cfg : config) (code : string)
    (reqs : list (string * Z)) (s : db) : list activate_response * db :=
  match reqs with
  | [] => ([], s)
  | (m, now) :: reqs' =>
      let '(r, s1) :=
        activate cfg (<["machine_id" := PyStr m]> (<["code" := PyStr code]> ∅)) now s in
      let '(rs, s2) := activate_each cfg code reqs' s1 in
      (r :: rs, s2)
  end.

(** ** Interleaved execution of activate requests

    waitress serves each request on its own thread and [get_db_connection]
    opens a connection per request.  With the default isolation level of
    the sqlite3 module a SELECT runs outside any transaction and reads the
    committed store; a transaction is begun implicitly by the first UPDATE
    or INSERT and takes the write lock of the database file, which only one
    connection holds at a time (the others wait, up to [timeout=10]); the
    writes stay private to the connection until [conn.commit()].  A request
    therefore advances statement by statement through the program points
    below. *)

Inductive act_pc : Type :=
| PcStart
    (* before line 320 *)
| PcCodeRead (machine_id code : string) (code_info : code_row)
    (* lines 320-329 done: the code row was read and is unused *)
| PcChecked (machine_id code : string) (code_info : code_row) (expires : Z)
    (* lines 331-343 done: no device row was found, the plan is known *)
| PcUpdated (machine_id code : string) (code_info : code_row) (expires : Z) (pending : db)
    (* line 347 done: UPDATE executed inside the transaction it began *)
| PcInserted (expires : Z) (pending : db)
    (* lines 348-351 done: INSERT executed *)
| PcDone (r : activate_response).

Record thread : Type := {
  t_body : gmap string pyval;
  t_now : Z;
  t_pc : act_pc
}.

Record shared : Type := {
  committed : db;
  writer : option nat   (* the thread holding the write lock *)
}.

Definition at_pc (t : thread) (pc : act_pc) : thread :=
  {| t_body := t_body t; t_now := t_now t; t_pc := pc |}.

(** One statement of thread [i]; [None] when the thread has finished or
    waits for the write lock. *)
Definition thread_step (cfg : config) (i : nat) (t : thread) (sh : shared)
    : option (thread * shared) :=
  match t_pc t with
  | PcStart =>
      let machine_id := py_str (json_get (t_body t) "machine_id") in
      let code_str := json_get (t_body t) "code" in
      if negb (str_truthy machine_id && py_truthy code_str)
      then Some (at_pc t (PcDone A_BadRequest), sh) else
      match code_str with
      | PyNone => Some (at_pc t (PcDone A_BadRequest), sh)
      | PyStr code =>
          match codes (committed sh) !! code with
          | None => Some (at_pc t (PcDone A_InvalidCode), sh)
          | Some code_info =>
              if opt_truthy (used_by code_info)
              then Some (at_pc t (PcDone A_InvalidCode), sh)
              else Some (at_pc t (PcCodeRead machine_id code code_info), sh)
          end
      end
  | PcCodeRead machine_id code code_info =>
      match devices (committed sh) !! machine_id with
      | Some _ => Some (at_pc t (PcDone A_AlreadyBound), sh)
      | None =>
          match plan_duration cfg (c_type code_info) with
          | None => Some (at_pc t (PcDone A_UnknownPlan), sh)
          | Some duration =>
              Some (at_pc t (PcChecked machine_id code code_info (t_now t + duration)), sh)
          end
      end
  | PcChecked machine_id code code_info expires =>
      match writer sh with
      | Some _ => None
      | None =>
          let pending := {| codes := set_used_by (Some machine_id) code (codes (committed sh));
                            devices := devices (committed sh) |} in
          Some (at_pc t (PcUpdated machine_id code code_info expires pending),
                {| committed := committed sh; writer := Some i |})
      end
  | PcUpdated machine_id code code_info expires pending =>
      let row := {| activation_code := code;
                    card_type := c_type code_info;
                    activated_at := t_now t;
                    expires_at := expires |} in
      match insert_device machine_id row (devices pending) with
      | None =>
          Some (at_pc t (PcDone A_StorageError),
                {| committed := committed sh; writer := None |})
      | Some devices' =>
          Some (at_pc t (PcInserted expires {| codes := codes pending; devices := devices' |}), sh)
      end
  | PcInserted expires pending =>
      Some (at_pc t (PcDone (A_Ok expires)), {| committed := pending; writer := None |})
  | PcDone _ => None
  end.

Record system : Type := {
  threads : list thread;
  store : shared
}.

Definition system_step (cfg : config) (i : nat) (sys : system) : option system :=
  t ← threads sys !! i;
  '(t', sh') ← thread_step cfg i t (store sys);
  Some {| threads := <[i := t']> (threads sys); store := sh' |}.

(** A schedule names the thread that moves next; a thread that cannot move
    leaves the system as it is. *)
Fixpoint run (cfg : config) (schedule : list nat) (sys : system) : system :=
  match schedule with
  | [] => sys
  | i :: rest => run cfg rest (default sys (system_step cfg i sys))
  end.

Arguments run : simpl never.

Definition new_request (body : gmap string pyval) (now : Z) : thread :=
  {| t_body := body; t_now := now; t_pc := PcStart |}.

Definition answer (t : thread) : option activate_response :=
  match t_pc t with
  | PcDone r => Some r
  | _ => None
  end.

(** ** Content index: the phonetic-group search of advanced_search

    A Python [dict] is an association list in insertion order with one
    pair per key.  An entry is the decoded JSON object of a dictionary row;
    [phonetic_radical] is [entry.get("components", {}).get("phonetic_radical")]
    and [is_phonetic_radical] the truth value of that field.  The three
    database builders create every entry as [{"glyph": key, ...}]. *)

Record entry : Type := {
  glyph : string;
  pinyin : string;
  char_type : list string;
  is_phonetic_radical : bool;
  phonetic_radical : option string
}.

#[global] Instance entry_eq_dec : EqDecision entry.
Proof. solve_decision. Defined.

Section pydict.
Context {V : Type}.

(** [d.get(k)] *)
Fixpoint dict_get (k : string) (d : list (string * V)) : option V :=
  match d with
  | [] => None
  | (k', v) :: d' => if decide (k = k') then Some v else dict_get k d'
  end.

(** [d[k] = v]: an existing key keeps its place and takes the new value,
    a new key goes to the end. *)
Fixpoint dict_set (k : string) (v : V) (d : list (string * V)) : list (string * V) :=
  match d with
  | [] => [(k, v)]
  | (k', v') :: d' =>
      if decide (k = k') then (k, v) :: d' else (k', v') :: dict_set k v d'
  end.

(** [d.values()] *)
Definition dict_values (d : list (string * V)) : list V := d.*2.
End pydict.

(** [build_indexes]: [dictionary_data[row['glyph']] = entry] for every row *)
Definition build_dictionary (rows : list (string * entry)) : list (string * entry) :=
  foldl (λ d row, dict_set row.1 row.2 d) [] rows.

(** the test of the list comprehension at line 388 *)
Definition in_group (radical : string) (e : entry) : bool :=
  bool_decide (phonetic_radical e = Some radical) || bool_decide (glyph e = radical).

(** the leader ([radical]) computed at lines 384-386 *)
Definition group_leader (dictionary_data : list (string * entry)) (query : string)
    : option string :=
  let entry := dict_get query dictionary_data in
  let radical := e ← entry; phonetic_radical e in
  match entry with
  | Some e => if is_phonetic_radical e then Some query else radical
  | None => radical
  end.

(** lines 383-390: [results] of the branch [search_type == 'phonetic_group'] *)
Definition phonetic_group_results (dictionary_data : list (string * entry))
    (query : string) : list entry :=
  let entry := dict_get query dictionary_data in
  match group_leader dictionary_data query with
  | Some radical =>
      if str_truthy radical
      then filter (λ e, in_group radical e = true) (dict_values dictionary_data)
      else option_list entry
  | None => option_list entry
  end.

(** line 391: [list({item['glyph']: item for item in results}.values())] *)
Definition unique_results (results : list entry) : list entry :=
  dict_values (foldl (λ d item, dict_set (glyph item) item d) [] results).

(** what [advanced_search] returns for [search_type == 'phonetic_group'] *)
Definition advanced_search_phonetic_group (dictionary_data : list (string * entry))
    (query : string) : list entry :=
  unique_results (phonetic_group_results dictionary_data query).

(** The leader as the specification words it: the [groupOf] back-reference
    first, the key itself only when there is none and the key is marked as
    a leader. *)
Definition group_leader_spec (dictionary_data : list (string * entry)) (query : string)
    : option string :=
  match dict_get query dictionary_data with
  | None => None
  | Some e =>
      if opt_truthy (phonetic_radical e) then phonetic_radical e
      else if is_phonetic_radical e then Some query else None
  end.

(** The group-membership search with the leader of the specification; all
    the rest is as in [advanced_search_phonetic_group]. *)
Definition phonetic_group_spec (dictionary_data : list (string * entry))
    (query : string) : list entry :=
  let entry := dict_get query dictionary_data in
  unique_results
    match group_leader_spec dictionary_data query with
    | Some radical =>
        if str_truthy radical
        then filter (λ e, in_group radical e = true) (dict_values dictionary_data)
        else option_list entry
    | None => option_list entry
    end.

(** ** Well-formed stores

    What every store built by the handlers satisfies: a binding has a
    non-empty device id and code, its code row exists, names the device in
    [used_by] and carries the plan the binding copied, the plan has a
    duration and the expiry is the activation instant plus that duration;
    a code with [used_by] set has the binding of that device. *)

Definition binding_ok (cfg : config) (s : db) (m : string) (b : device_row) : Prop :=
  str_truthy m = true ∧
  str_truthy (activation_code b) = true ∧
  (∃ r, codes s !! activation_code b = Some r ∧ used_by r = Some m ∧ c_type r = card_type b) ∧
  (∃ d, plan_duration cfg (card_type b) = Some d ∧ expires_at b = activated_at b + d).

Definition db_inv (cfg : config) (s : db) : Prop :=
  (∀ m b, devices s !! m = Some b → binding_ok cfg s m b) ∧
  (∀ c r m, codes s !! c = Some r → used_by r = Some m →
     ∃ b, devices s !! m = Some b ∧ activation_code b = c).

(** the body of a request from a client that sends both fields *)
Definition activate_body (m code : string) : gmap string pyval :=
  <["machine_id" := PyStr m]> (<["code" := PyStr code]> ∅).

Definition device_body (m : string) : gmap string pyval :=
  <["machine_id" := PyStr m]> ∅.

(** the row [activate] inserts *)
Definition new_binding (code plan : string) (now duration : Z) : device_row :=
  {| activation_code := code; card_type := plan;
     activated_at := now; expires_at := now + duration |}.

(** ** Sample stores

    Five monthly codes generated under the default configuration; then one
    of them redeemed by dev-1 at instant 0. *)

Definition five_codes : list string :=
  ["1A2B3C4D"; "5E6F7A8B"; "9C0D1E2F"; "3A4B5C6D"; "7E8F9A0B"].

Definition five_monthly : db :=
  (manage default_config true "monthly" five_codes empty_db).2.

Definition dev1_bound : db :=
  (activate default_config (activate_body "dev-1" "1A2B3C4D") 0 five_monthly).2.

(** a store, as the migration from activation_codes.json can load it,
    whose only code has the empty string in [used_by] *)
Definition blank_used_by : db :=
  {| codes := {["C0DE0001" := {| c_type := "monthly"; used_by := Some "" |}]};
     devices := ∅ |}.

(** a four-entry dictionary from the builders' input format: the group
    line of the radical 女 lists 奴, the group line of 奴 lists 怒 and 努 *)
Definition e_nv : entry :=
  {| glyph := "女"; pinyin := "nv"; char_type := ["象形字"];
     is_phonetic_radical := true; phonetic_radical := None |}.
Definition e_nu : entry :=
  {| glyph := "奴"; pinyin := "nu"; char_type := ["形声字"];
     is_phonetic_radical := true; phonetic_radical := Some "女" |}.
Definition e_nu4 : entry :=
  {| glyph := "怒"; pinyin := "nu"; char_type := ["形声字"];
     is_phonetic_radical := false; phonetic_radical := Some "奴" |}.
Definition e_nu3 : entry :=
  {| glyph := "努"; pinyin := "nu"; char_type := ["形声字"];
     is_phonetic_radical := false; phonetic_radical := Some "奴" |}.

Definition sample_dictionary : list (string * entry) :=
  build_dictionary [("女", e_nv); ("奴", e_nu); ("怒", e_nu4); ("努", e_nu3)].

(** two requests for one code on two connections; the schedule lets both
    run their two SELECTs before either runs its UPDATE *)
Definition two_requests (s : db) (code m1 m2 : string) (now1 now2 : Z) : system :=
  {| threads := [new_request (activate_body m1 code) now1;
                 new_request (activate_body m2 code) now2];
     store := {| committed := s; writer := None |} |}.

Definition racing_schedule : list nat := [0; 1; 0; 1; 0; 0; 0; 1; 1; 1]%nat.

Definition one_code : db :=
  (manage default_config true "monthly" ["0F1E2D3C"] empty_db).2.

(** ** The content endpoints: build_indexes, get_identities, advanced_search

    [str.lower] is a parameter [lower] of the definitions that call it. *)

#[global] Instance pyval_eq_dec : EqDecision pyval.
Proof. solve_decision. Defined.

(** [d.setdefault(k, []).append(v)] *)
Fixpoint dict_append {V : Type} (k : string) (v : V)
    (d : list (string * list V)) : list (string * list V) :=
  match d with
  | [] => [(k, [v])]
  | (k', vs) :: d' =>
      if decide (k = k') then (k', vs ++ [v]) :: d' else (k', vs) :: dict_append k v d'
  end.

(** the three module-level dictionaries of line 199 *)
Record indexes : Type := {
  dictionary_data : list (string * entry);
  pinyin_index : list (string * list entry);
  char_type_index : list (string * list entry)
}.

Definition empty_indexes : indexes :=
  {| dictionary_data := []; pinyin_index := []; char_type_index := [] |}.

(** the body of the loop of [build_indexes], lines 205-211 *)
Definition index_row (lower : string → string) (ix : indexes) (row : string * entry)
    : indexes :=
  let entry := row.2 in
  let pinyin := lower (pinyin entry) in
  {| dictionary_data := dict_set row.1 entry (dictionary_data ix);
     pinyin_index :=
       if str_truthy pinyin then dict_append pinyin entry (pinyin_index ix)
       else pinyin_index ix;
     char_type_index :=
       foldl (λ c t, dict_append t entry c) (char_type_index ix) (char_type entry) |}.

(** [build_indexes], run once at start on the rows of the dictionary table *)
Definition build_indexes (lower : string → string) (rows : list (string * entry))
    : indexes :=
  foldl (index_row lower) empty_indexes rows.

Record identity : Type := {
  id_type : string;
  id_query : string;
  id_label : string
}.

Inductive content_response : Type :=
| C_Refused (g : guard_result)
| C_NotFound
| C_ServerError
| C_Identities (ids : list identity)
| C_Results (results : list entry).

(** the decorator: the wrapped handler runs only when the guard passes *)
Definition guarded (body : gmap string pyval) (now : Z) (s : db)
    (handler : content_response) : content_response :=
  match require_activated_device body now s with
  | G_Pass => handler
  | g => C_Refused g
  end.

(** [get_identities] below the decorator, lines 364-370 *)
Definition get_identities_body (ix : indexes) (body : gmap string pyval)
    : content_response :=
  match json_get body "char" with
  | PyNone => C_NotFound
  | PyStr char =>
      match dict_get char (dictionary_data ix) with
      | None => C_NotFound
      | Some entry =>
          let identities :=
            [{| id_type := "definition"; id_query := char;
                id_label := "查看“" +:+ char +:+ "”的定义" |}] in
          if is_phonetic_radical entry || opt_truthy (phonetic_radical entry)
          then C_Identities
                 (identities ++
                  [{| id_type := "phonetic_group"; id_query := char;
                      id_label := "查看“" +:+ char +:+ "”所属的形声字组" |}])
          else C_Identities identities
      end
  end.

Definition get_identities (ix : indexes) (body : gmap string pyval) (now : Z) (s : db)
    : content_response :=
  guarded body now s (get_identities_body ix body).

(** [advanced_search] below the decorator, lines 375-392.  A [query] of
    None has no [lower] method: the pinyin branch raises. *)
Definition advanced_search_body (lower : string → string) (ix : indexes)
    (body : gmap string pyval) : content_response :=
  let search_type := json_get body "search_type" in
  let query := json_get body "query" in
  if decide (search_type = PyStr "definition") then
    C_Results (unique_results
      match query with
      | PyStr q => option_list (dict_get q (dictionary_data ix))
      | PyNone => []
      end)
  else if decide (search_type = PyStr "pinyin") then
    match query with
    | PyStr q => C_Results (unique_results (default [] (dict_get (lower q) (pinyin_index ix))))
    | PyNone => C_ServerError
    end
  else if decide (search_type = PyStr "char_type") then
    C_Results (unique_results
      match query with
      | PyStr q => default [] (dict_get q (char_type_index ix))
      | PyNone => []
      end)
  else if decide (search_type = PyStr "phonetic_group") then
    C_Results (unique_results
      match query with
      | PyStr q => phonetic_group_results (dictionary_data ix) q
      | PyNone => []
      end)
  else C_Results (unique_results []).

Definition advanced_search (lower : string → string) (ix : indexes)
    (body : gmap string pyval) (now : Z) (s : db) : content_response :=
  guarded body now s (advanced_search_body lower ix body).

(** the request main.py sends when an identity button is clicked *)
Definition identity_request (m : string) (i : identity) : gmap string pyval :=
  <["machine_id" := PyStr m]>
    (<["search_type" := PyStr (id_type i)]> (<["query" := PyStr (id_query i)]> ∅)).

(** [str.lower] on ASCII text *)
Definition ascii_lower_char (c : Ascii.ascii) : Ascii.ascii :=
  let n := Ascii.N_of_ascii c in
  if bool_decide (65 <= n <= 90)%N then Ascii.ascii_of_N (n + 32) else c.

Fixpoint ascii_lower (s : string) : string :=
  match s with
  | EmptyString => EmptyString
  | String c s' => String (ascii_lower_char c) (ascii_lower s')
  end.

(** ** Administrator password: create_admin.py and verify_password

    A [bytes] value is a list of 8-bit characters; a [str] is the string of
    its UTF-8 bytes, so that [encode('utf-8')] lists the characters.
    [hashlib.pbkdf2_hmac('sha256', password, salt, 260000)] is a parameter
    [pbkdf2] of the definitions that call it. *)

(** one digit of [bytes.hex()], for [n < 16] *)
Definition hex_digit (n : N) : Ascii.ascii :=
  if bool_decide (n < 10)%N then Ascii.ascii_of_N (48 + n) else Ascii.ascii_of_N (87 + n).

(** the value of a hexadecimal digit, of either case *)
Definition hex_value (c : Ascii.ascii) : option N :=
  let n := Ascii.N_of_ascii c in
  if bool_decide (48 <= n <= 57)%N then Some (n - 48)%N
  else if bool_decide (97 <= n <= 102)%N then Some (n - 87)%N
  else if bool_decide (65 <= n <= 70)%N then Some (n - 55)%N
  else None.

(** ASCII whitespace, which [bytes.fromhex] skips between bytes *)
Definition is_space (c : Ascii.ascii) : bool :=
  let n := Ascii.N_of_ascii c in
  bool_decide (n = 32 ∨ 9 <= n <= 13)%N.

(** [b.hex()] *)
Fixpoint bytes_hex (b : list Ascii.ascii) : string :=
  match b with
  | [] => EmptyString
  | c :: b' =>
      let n := Ascii.N_of_ascii c in
      String (hex_digit (n / 16)) (String (hex_digit (n mod 16)) (bytes_hex b'))
  end.

(** [bytes.fromhex(s)]; [None] is the ValueError *)
Fixpoint bytes_fromhex (s : string) : option (list Ascii.ascii) :=
  match s with
  | EmptyString => Some []
  | String c s' =>
      if is_space c then bytes_fromhex s' else
      match hex_value c, s' with
      | Some top, String c2 s'' =>
          match hex_value c2 with
          | Some bot => cons (Ascii.ascii_of_N (16 * top + bot)) <$> bytes_fromhex s''
          | None => None
          end
      | _, _ => None
      end
  end.

(** [s.split(sep)] for a one-character separator *)
Fixpoint str_split (sep : Ascii.ascii) (s : string) : list string :=
  match s with
  | EmptyString => [EmptyString]
  | String c s' =>
      if decide (c = sep) then EmptyString :: str_split sep s'
      else match str_split sep s' with
           | h :: t => String c h :: t
           | [] => [String c EmptyString]
           end
  end.

Definition dollar : Ascii.ascii := Ascii.ascii_of_N 36.

(** [verify_password], lines 272-279 *)
Definition verify_password (pbkdf2 : list Ascii.ascii → list Ascii.ascii → list Ascii.ascii)
    (stored_hash provided_password : string) : bool :=
  match str_split dollar stored_hash with
  | [salt_hex; original_key_hex] =>
      match bytes_fromhex salt_hex with
      | None => false
      | Some salt =>
          let derived_key := pbkdf2 (String.list_ascii_of_string provided_password) salt in
          match bytes_fromhex original_key_hex with
          | None => false
          | Some original_key => bool_decide (original_key = derived_key)
          end
      end
  | _ => false
  end.

(** [create_admin_password_hash] of create_admin.py: the two inputs, the
    salt drawn by [secrets.token_bytes(16)], and the hash it prints, if
    any *)
Definition create_admin_password_hash
    (pbkdf2 : list Ascii.ascii → list Ascii.ascii → list Ascii.ascii)
    (password password_confirm : string) (salt : list Ascii.ascii) : option string :=
  if negb (bool_decide (password = password_confirm)) then None else
  if negb (str_truthy password) then None else
  let derived_key := pbkdf2 (String.list_ascii_of_string password) salt in
  Some (bytes_hex salt +:+ String dollar (bytes_hex derived_key)).

(** ** login, logout and the administrator's requests

    The session holds the one flag [logged_in].  [submitted] is the
    password of a form for which [validate_on_submit] holds, and [None]
    for any other request to /login. *)

Inductive login_response : Type :=
| L_Form
| L_Redirect.

Definition login (pbkdf2 : list Ascii.ascii → list Ascii.ascii → list Ascii.ascii)
    (ADMIN_PASSWORD_HASH : string) (submitted : option string) (logged_in : bool)
    : login_response * bool :=
  match submitted with
  | Some password =>
      if verify_password pbkdf2 ADMIN_PASSWORD_HASH password
      then (L_Redirect, true)
      else (L_Form, logged_in)
  | None => (L_Form, logged_in)
  end.

Definition logout (logged_in : bool) : bool := false.

Inductive admin_request : Type :=
| Req_login (submitted : option string)
| Req_logout
| Req_manage (plan : string) (tokens : list string)
| Req_revoke (body : gmap string pyval).

(** one request of the administrator's browser on the session and store *)
Definition admin_step (pbkdf2 : list Ascii.ascii → list Ascii.ascii → list Ascii.ascii)
    (cfg : config) (ADMIN_PASSWORD_HASH : string) (st : bool * db)
    (req : admin_request) : bool * db :=
  match req with
  | Req_login submitted => ((login pbkdf2 ADMIN_PASSWORD_HASH submitted st.1).2, st.2)
  | Req_logout => (logout st.1, st.2)
  | Req_manage plan tokens => (st.1, (manage cfg st.1 plan tokens st.2).2)
  | Req_revoke body => (st.1, (revoke_authorization st.1 body st.2).2)
  end.

Definition admin_run (pbkdf2 : list Ascii.ascii → list Ascii.ascii → list Ascii.ascii)
    (cfg : config) (ADMIN_PASSWORD_HASH : string) (reqs : list admin_request)
    (st : bool * db) : bool * db :=
  foldl (admin_step pbkdf2 cfg ADMIN_PASSWORD_HASH) st reqs.

(** a stand-in for the key derivation in examples: the password bytes
    followed by the salt *)
Definition sample_kdf (password salt : list Ascii.ascii) : list Ascii.ascii :=
  password ++ salt.

(** ** management_data: the listing of codes

    The [codes] member of the answer, for a request that leaves the device
    parameters at their defaults.  The [devices] member is ordered by the
    ISO text of [activated_at], which this model of the store does not
    keep, and is left out.  [like search value] is the SQL test
    [value LIKE '%' || search || '%'], a parameter. *)

(** the WHERE clause built at lines 432-441; a NULL [used_by] matches no
    pattern *)
Definition code_matches (like : string → string → bool) (code_search : string)
    (show_unused : bool) (row : string * code_row) : bool :=
  (if str_truthy code_search
   then like code_search row.1
        || match used_by row.2 with Some u => like code_search u | None => false end
   else true)
  && (if show_unused then bool_decide (used_by row.2 = None) else true).

(** [ORDER BY code DESC]: rows by decreasing primary key, compared byte by
    byte *)
Fixpoint insert_code_desc (x : string * code_row) (l : list (string * code_row))
    : list (string * code_row) :=
  match l with
  | [] => [x]
  | y :: l' => if String.ltb x.1 y.1 then y :: insert_code_desc x l' else x :: l
  end.

Definition order_by_code_desc (l : list (string * code_row)) : list (string * code_row) :=
  foldr insert_code_desc [] l.

(** [LIMIT limit OFFSET offset]: a negative offset counts as zero, a
    negative limit as no limit *)
Definition limit_offset {A : Type} (limit offset : Z) (l : list A) : list A :=
  let rest := drop (Z.to_nat offset) l in
  if bool_decide (limit < 0) then rest else take (Z.to_nat limit) rest.

(** an integer sqlite3 can bind; a larger one raises OverflowError *)
Definition int64 (z : Z) : bool :=
  bool_decide (-9223372036854775808 <= z <= 9223372036854775807).

Inductive listing_response : Type :=
| MD_Unauthorized
| MD_ServerError
| MD_Codes (items : list (string * code_row)) (total page per_page : Z).

Definition management_data_codes (like : string → string → bool) (logged_in : bool)
    (code_page code_per_page : Z) (code_search : string) (show_unused : bool)
    (s : db) : listing_response :=
  if negb logged_in then MD_Unauthorized else
  let matching :=
    filter (λ row, code_matches like code_search show_unused row = true)
           (map_to_list (codes s)) in
  let total_codes := Z.of_nat (length matching) in
  if negb (int64 code_per_page && int64 ((code_page - 1) * code_per_page))
  then MD_ServerError else
  MD_Codes (limit_offset code_per_page ((code_page - 1) * code_per_page)
              (order_by_code_desc matching))
           total_codes code_page code_per_page.

(** the items of an answer, none for a refusal *)
Definition listing_items (r : listing_response) : list (string * code_row) :=
  match r with
  | MD_Codes items _ _ _ => items
  | _ => []
  end.

(** ** Request statistics: record_request_stats and monitoring_data

    [total_requests] and the [Counter] of endpoints, both updated under
    [stats_lock].  Of [monitoring_data] the [app] member of the answer is
    modelled; the [system] member reports psutil readings. *)

Record stats : Type := {
  total_requests : Z;
  endpoint_counts : list (string * Z)
}.

Definition no_stats : stats := {| total_requests := 0; endpoint_counts := [] |}.

Definition excluded_endpoints : list string :=
  ["monitoring"; "management_data"; "revoke_authorization"; "manage";
   "login"; "logout"; "static"].

(** is the request counted?  [request.endpoint] is None for an unknown URL *)
Definition counted (endpoint : option string) : bool :=
  match endpoint with
  | Some e => negb (bool_decide (e ∈ excluded_endpoints))
  | None => true
  end.

(** [record_request_stats], lines 221-229 *)
Definition record_request_stats (endpoint : option string) (st : stats) : stats :=
  if negb (counted endpoint) then st else
  let key := match endpoint with
             | Some e => if str_truthy e then e else "notfound"
             | None => "notfound"
             end in
  {| total_requests := total_requests st + 1;
     endpoint_counts :=
       dict_set key (default 0 (dict_get key (endpoint_counts st)) + 1)
                (endpoint_counts st) |}.

(** [Counter.most_common]: by decreasing count, equal counts in the order
    of first insertion *)
Fixpoint insert_by_count (x : string * Z) (l : list (string * Z)) : list (string * Z) :=
  match l with
  | [] => [x]
  | y :: l' => if bool_decide (x.2 < y.2) then y :: insert_by_count x l' else x :: l
  end.

Definition most_common (n : nat) (counts : list (string * Z)) : list (string * Z) :=
  take n (foldr insert_by_count [] counts).

Definition sum_counts (l : list Z) : Z := foldr Z.add 0 l.

(** the [endpoint_pie_chart] of [monitoring_data], lines 246-252 *)
Definition endpoint_pie_chart (st : stats) : list string * list Z :=
  let top_5 := most_common 5 (endpoint_counts st) in
  let pie_labels := top_5.*1 in
  let pie_data := top_5.*2 in
  let other_count := total_requests st - sum_counts pie_data in
  if bool_decide (other_count > 0)
  then (pie_labels ++ ["other"], pie_data ++ [other_count])
  else (pie_labels, pie_data).

(** the rows of the sample dictionary and the indexes built from them *)
Definition sample_rows : list (string * entry) :=
  [("女", e_nv); ("奴", e_nu); ("怒", e_nu4); ("努", e_nu3)].

Definition sample_indexes : indexes := build_indexes ascii_lower sample_rows.

#[global] Instance code_row_eq_dec : EqDecision code_row.
Proof. solve_decision. Defined.




(** * Properties *)

(** ** Basic facts on the coercions and the statements *)

Lemma str_truthy_true s : str_truthy s = true ↔ s ≠ "".
Proof. destruct s; simpl; split; congruence. Qed.

Lemma str_truthy_false s : str_truthy s = false ↔ s = "".
Proof. destruct s; simpl; split; congruence. Qed.

Lemma json_get_insert body k v : json_get (<[k := v]> body) k = v.
Proof. unfold json_get. by rewrite lookup_insert_eq. Qed.

Lemma json_get_insert_ne body k k' v :
  k ≠ k' → json_get (<[k := v]> body) k' = json_get body k'.
Proof. intros Hne. unfold json_get. by rewrite lookup_insert_ne. Qed.

Lemma json_get_absent body k : body !! k = None → json_get body k = PyNone.
Proof. intros H. unfold json_get. by rewrite H. Qed.

Lemma activate_body_machine_id m code :
  json_get (activate_body m code) "machine_id" = PyStr m.
Proof. apply json_get_insert. Qed.

Lemma activate_body_code m code :
  json_get (activate_body m code) "code" = PyStr code.
Proof. unfold activate_body. rewrite json_get_insert_ne by done. apply json_get_insert. Qed.

Lemma device_body_machine_id m : json_get (device_body m) "machine_id" = PyStr m.
Proof. apply json_get_insert. Qed.

Lemma set_used_by_lookup v c cs c' :
  set_used_by v c cs !! c' =
  if decide (c = c')
  then (λ r, {| c_type := c_type r; used_by := v |}) <$> cs !! c'
  else cs !! c'.
Proof.
  unfold set_used_by. destruct (decide (c = c')) as [->|Hne].
  - rewrite lookup_alter. by case_decide.
  - by rewrite lookup_alter_ne.
Qed.

(** ** What a call of [activate] does, by outcome *)

Lemma activate_success cfg body now s expires :
  (activate cfg body now s).1 = A_Ok expires →
  ∃ code ci d,
    let m := py_str (json_get body "machine_id") in
    str_truthy m = true ∧
    json_get body "code" = PyStr code ∧ str_truthy code = true ∧
    codes s !! code = Some ci ∧ opt_truthy (used_by ci) = false ∧
    devices s !! m = None ∧
    plan_duration cfg (c_type ci) = Some d ∧ expires = now + d ∧
    (activate cfg body now s).2 =
      {| codes := set_used_by (Some m) code (codes s);
         devices := <[m := new_binding code (c_type ci) now d]> (devices s) |}.
Proof.
  unfold activate, insert_device.
  destruct (str_truthy (py_str (json_get body "machine_id"))) eqn:Hm; simpl; [|done].
  destruct (json_get body "code") as [|code] eqn:Hc; simpl; [done|].
  destruct (str_truthy code) eqn:Hcode; simpl; [|done].
  destruct (codes s !! code) as [ci|] eqn:Hci; [|done].
  destruct (opt_truthy (used_by ci)) eqn:Hu; [done|].
  destruct (devices s !! py_str (json_get body "machine_id")) eqn:Hd; [done|].
  destruct (plan_duration cfg (c_type ci)) as [d|] eqn:Hp; [|done].
  simpl. intros [= <-]. exists code, ci, d. by repeat split.
Qed.

Lemma activate_failure cfg body now s :
  (∀ expires, (activate cfg body now s).1 ≠ A_Ok expires) →
  (activate cfg body now s).2 = s.
Proof.
  unfold activate, insert_device.
  repeat (case_match; simpl; try done).
  intros Hno. exfalso. by eapply Hno.
Qed.

Lemma activate_never_storage_error cfg body now s :
  (activate cfg body now s).1 ≠ A_StorageError.
Proof. unfold activate, insert_device. repeat (case_match; simpl; try done). Qed.

(** ** What [revoke_authorization] and [manage] do, by outcome *)

Lemma revoke_success logged_in body s :
  (revoke_authorization logged_in body s).1 = R_Ok →
  ∃ m b,
    logged_in = true ∧ json_get body "machine_id" = PyStr m ∧
    str_truthy m = true ∧ devices s !! m = Some b ∧
    (revoke_authorization logged_in body s).2 =
      {| codes := if str_truthy (activation_code b)
                  then set_used_by None (activation_code b) (codes s)
                  else codes s;
         devices := delete m (devices s) |}.
Proof.
  unfold revoke_authorization.
  destruct logged_in; simpl; [|done].
  destruct (json_get body "machine_id") as [|m]; simpl; [done|].
  destruct (str_truthy m) eqn:Hm; simpl; [|done].
  destruct (devices s !! m) as [b|] eqn:Hb; simpl; [|done].
  intros _. by exists m, b.
Qed.

Lemma revoke_failure logged_in body s :
  (revoke_authorization logged_in body s).1 ≠ R_Ok →
  (revoke_authorization logged_in body s).2 = s.
Proof. unfold revoke_authorization. repeat (case_match; simpl; try done). Qed.

Lemma insert_codes_spec plan tokens cs cs' :
  insert_codes plan tokens cs = Some cs' →
  (∀ c, c ∈ tokens →
     cs !! c = None ∧ cs' !! c = Some {| c_type := plan; used_by := None |}) ∧
  (∀ c, c ∉ tokens → cs' !! c = cs !! c).
Proof.
  revert cs. induction tokens as [|t ts IH]; intros cs; simpl.
  - intros [= <-]. split; [intros c Hc; inversion Hc | done].
  - destruct (cs !! t) eqn:Ht; [done|]. intros Hins.
    destruct (IH _ Hins) as [Hin Hout].
    assert (t ∉ ts) as Htts.
    { intros Hts. destruct (Hin t Hts) as [Hnone _].
      by rewrite lookup_insert_eq in Hnone. }
    split.
    + intros c [->|Hc]%elem_of_cons.
      * split; [done|]. rewrite (Hout t Htts). by rewrite lookup_insert_eq.
      * destruct (Hin c Hc) as [Hnone Hsome]. split; [|done].
        destruct (decide (t = c)) as [->|Hne]; [done|].
        by rewrite lookup_insert_ne in Hnone.
    + intros c [Hne Hc]%not_elem_of_cons.
      rewrite (Hout c Hc). by rewrite lookup_insert_ne.
Qed.

Lemma manage_effect cfg logged_in plan tokens s :
  (manage cfg logged_in plan tokens s).2 = s ∨
  ∃ cs', insert_codes plan tokens (codes s) = Some cs' ∧
         (manage cfg logged_in plan tokens s).2 = {| codes := cs'; devices := devices s |}.
Proof.
  unfold manage. repeat (case_match; simpl; eauto).
Qed.

(** ** The handlers keep the store well formed *)

Lemma empty_db_inv cfg : db_inv cfg empty_db.
Proof. split; intros *; simpl; by rewrite lookup_empty. Qed.

Lemma activate_preserves_inv cfg body now s :
  db_inv cfg s → db_inv cfg (activate cfg body now s).2.
Proof.
  intros [Hdev Hcode].
  destruct (activate cfg body now s).1 as [| | | | |expires] eqn:Hr;
    try (rewrite activate_failure; [by split | intros e; rewrite Hr; done]).
  destruct (activate_success _ _ _ _ _ Hr)
    as (code & ci & d & Hm & Hc & Hct & Hci & Hu & Hd & Hp & -> & ->).
  set (m := py_str (json_get body "machine_id")) in *.
  assert (∀ m', used_by ci = Some m' → False) as Hfree.
  { intros m' Hm'. destruct (Hcode _ _ _ Hci Hm') as (b & Hb & _).
    destruct (Hdev _ _ Hb) as (Hne & _). rewrite Hm' in Hu. simpl in Hu. congruence. }
  split; simpl.
  - intros m' b. rewrite lookup_insert.
    case_decide as Hmm; simplify_eq.
    + intros [= <-]. unfold binding_ok, new_binding; simpl.
      repeat split; [done..| |by eauto].
      rewrite set_used_by_lookup, decide_True, Hci by done. simpl. eauto.
    + intros Hb. destruct (Hdev _ _ Hb) as (? & ? & (r & Hr1 & Hr2 & Hr3) & ?).
      repeat split; [done..| |done]. simpl.
      rewrite set_used_by_lookup. case_decide as Hcc; [|by eauto].
      subst code. rewrite Hr1 in Hci. simplify_eq. by destruct (Hfree m').
  - intros c r m'. rewrite set_used_by_lookup.
    case_decide as Hcc.
    + subst c. rewrite Hci. simpl. intros [= <-]; simpl. intros [= <-].
      rewrite lookup_insert_eq. eauto.
    + intros Hc' Hu'. destruct (Hcode _ _ _ Hc' Hu') as (b & Hb & Hbc).
      exists b. split; [|done]. rewrite lookup_insert_ne; [done|].
      intros <-. by rewrite Hd in Hb.
Qed.

Lemma revoke_preserves_inv cfg logged_in body s :
  db_inv cfg s → db_inv cfg (revoke_authorization logged_in body s).2.
Proof.
  intros [Hdev Hcode].
  destruct (revoke_authorization logged_in body s).1 eqn:Hr;
    try (rewrite revoke_failure; [by split | by rewrite Hr]).
  destruct (revoke_success _ _ _ Hr) as (m & b & _ & _ & Hm & Hb & ->).
  destruct (Hdev _ _ Hb) as (_ & Hcb & (r & Hr1 & Hr2 & Hr3) & _).
  rewrite Hcb. split; simpl.
  - intros m' b'. rewrite lookup_delete. case_decide as Hmm; [done|].
    intros Hb'. destruct (Hdev _ _ Hb') as (? & ? & (r' & Hr1' & Hr2' & Hr3') & ?).
    repeat split; [done..| |done]. simpl.
    rewrite set_used_by_lookup. case_decide as Hcc; [|by eauto].
    rewrite <- Hcc, Hr1 in Hr1'. simplify_eq.
  - intros c r' m'. rewrite set_used_by_lookup. case_decide as Hcc.
    + subst c. rewrite Hr1. simpl. by intros [= <-].
    + intros Hc' Hu'. destruct (Hcode _ _ _ Hc' Hu') as (b' & Hb' & Hbc).
      exists b'. split; [|done]. rewrite lookup_delete_ne; [done|].
      intros <-. rewrite Hb in Hb'. by simplify_eq.
Qed.

Lemma manage_preserves_inv cfg logged_in plan tokens s :
  db_inv cfg s → db_inv cfg (manage cfg logged_in plan tokens s).2.
Proof.
  intros [Hdev Hcode].
  destruct (manage_effect cfg logged_in plan tokens s) as [->|(cs' & Hins & ->)];
    [by split|].
  destruct (insert_codes_spec _ _ _ _ Hins) as [Hin Hout].
  split; simpl.
  - intros m b Hb. destruct (Hdev _ _ Hb) as (? & ? & (r & Hr1 & Hr2 & Hr3) & ?).
    repeat split; [done..| |done]. simpl. exists r. split; [|done].
    destruct (decide (activation_code b ∈ tokens)) as [Ht|Ht].
    + destruct (Hin _ Ht) as [Hnone _]. by rewrite Hnone in Hr1.
    + by rewrite Hout.
  - intros c r m Hc Hu.
    destruct (decide (c ∈ tokens)) as [Ht|Ht].
    + destruct (Hin _ Ht) as [_ Hsome]. rewrite Hsome in Hc. by simplify_eq.
    + rewrite Hout in Hc by done. eauto.
Qed.

Lemma reachable_inv cfg s : reachable cfg s → db_inv cfg s.
Proof.
  induction 1;
    eauto using empty_db_inv, activate_preserves_inv,
                revoke_preserves_inv, manage_preserves_inv.
Qed.

(** ** Bindings and redeemed codes (C10) *)


Lemma five_monthly_reachable : reachable default_config five_monthly.
Proof. apply reach_manage, reach_empty. Qed.

Lemma dev1_bound_reachable : reachable default_config dev1_bound.
Proof. apply reach_activate, five_monthly_reachable. Qed.


(** ** Expiry of a new binding (C4) *)

(** C4.  A successful [activate] creates a binding whose plan is the plan
    of the code and whose expiry is the activation instant plus the number
    of days the configuration gives that plan at the time of the call (30
    days for a plan configured as 30); the response carries that expiry,
    and a later [check_status] of the device at any instant before the
    expiry answers activated with that plan and expiry. *)
Theorem activate_sets_expiry cfg body now s expires :
  (activate cfg body now s).1 = A_Ok expires →
  let s' := (activate cfg body now s).2 in
  let m := py_str (json_get body "machine_id") in
  ∃ code ci days b,
    json_get body "code" = PyStr code ∧ codes s !! code = Some ci ∧
    CARD_DURATIONS cfg !! c_type ci = Some days ∧
    devices s' !! m = Some b ∧
    activation_code b = code ∧ card_type b = c_type ci ∧ activated_at b = now ∧
    expires_at b = activated_at b + days * day_us ∧
    (days = 30 → expires_at b = activated_at b + 30 * day_us) ∧
    expires = expires_at b ∧
    ∀ body' now',
      py_str (json_get body' "machine_id") = m → now' < expires_at b →
      check_status body' now' s' = (S_Activated (expires_at b) (c_type ci), s').
Proof.
  intros Hok s' m.
  destruct (activate_success _ _ _ _ _ Hok)
    as (code & ci & d & Hm & Hc & Hct & Hci & Hu & Hd & Hp & -> & Hs').
  unfold plan_duration in Hp.
  destruct (CARD_DURATIONS cfg !! c_type ci) as [days|] eqn:Hdays; [|done].
  case_bool_decide; [done|]. simplify_eq.
  exists code, ci, days, (new_binding code (c_type ci) now (days * day_us)).
  assert (devices s' !! m = Some (new_binding code (c_type ci) now (days * day_us))) as Hb.
  { subst s'. rewrite Hs'. simpl. apply lookup_insert_eq. }
  repeat split; try done.
  - by intros ->.
  - intros body' now' Hm' Hlt. unfold check_status.
    rewrite Hm'. fold m in Hm. rewrite Hm. simpl. rewrite Hb.
    rewrite bool_decide_true; [done|]. simpl in *. lia.
Qed.

Lemma activate_sets_expiry_witness :
  (activate default_config (activate_body "dev-1" "1A2B3C4D") 0 five_monthly).1
    = A_Ok (30 * day_us) ∧
  check_status (device_body "dev-1") (29 * day_us) dev1_bound
    = (S_Activated (30 * day_us) "monthly", dev1_bound).
Proof.
  assert ((activate default_config (activate_body "dev-1" "1A2B3C4D") 0 five_monthly).1
            = A_Ok (30 * day_us)) as Hok by (vm_compute; reflexivity).
  split; [exact Hok|].
  destruct (activate_sets_expiry _ _ _ _ _ Hok)
    as (code & ci & days & b & Hcode & Hci & Hdays & Hb & _ & _ & _ & _ & _ & He & Hcheck).
  assert (ci = {| c_type := "monthly"; used_by := None |}) as ->.
  { rewrite activate_body_code in Hcode. injection Hcode as <-.
    vm_compute in Hci. congruence. }
  rewrite <- He in Hcheck.
  apply Hcheck; [vm_compute; reflexivity | vm_compute; reflexivity].
Defined.

(** ** The expiry comparison (C5) *)

(** C5.  For a device with a binding, [check_status] answers activated
    exactly when [expires_at > now] and expired otherwise, and the guard
    lets the request pass exactly when [expires_at > now] and answers
    expired otherwise; at [expires_at = now] both say expired. *)
Theorem expiry_is_exclusive body now s b :
  let m := py_str (json_get body "machine_id") in
  str_truthy m = true →
  devices s !! m = Some b →
  ((check_status body now s).1 = S_Activated (expires_at b) (card_type b)
     ↔ expires_at b > now) ∧
  ((check_status body now s).1 = S_Expired (expires_at b) ↔ expires_at b <= now) ∧
  (require_activated_device body now s = G_Pass ↔ expires_at b > now) ∧
  (require_activated_device body now s = G_Expired ↔ expires_at b <= now) ∧
  (expires_at b = now →
     (check_status body now s).1 = S_Expired (expires_at b) ∧
     require_activated_device body now s = G_Expired).
Proof.
  intros m Hm Hb. unfold check_status, require_activated_device.
  fold m. rewrite Hm, Hb. simpl.
  repeat case_bool_decide; simpl; repeat split; try done; try lia; intros; lia.
Qed.

Lemma expiry_is_exclusive_witness :
  (check_status (device_body "dev-1") (30 * day_us) dev1_bound).1
    = S_Expired (30 * day_us) ∧
  require_activated_device (device_body "dev-1") (30 * day_us) dev1_bound = G_Expired.
Proof.
  apply (expiry_is_exclusive (device_body "dev-1") (30 * day_us) dev1_bound
           (new_binding "1A2B3C4D" "monthly" 0 (30 * day_us)));
    vm_compute; reflexivity.
Defined.

(** ** Revocation frees the code (C6) *)




(** ** check_status reads and never writes (C7) *)

(** C7, as stated, fails: two calls with nothing written in between differ
    when the clock passes the expiry between them.  The binding of dev-1
    expires at day 30; the call at day 29 answers activated, the call at
    day 30 on the store the first call left answers expired. *)
Lemma check_status_changes_across_expiry :
  let first := check_status (device_body "dev-1") (29 * day_us) dev1_bound in
  let second := check_status (device_body "dev-1") (30 * day_us) first.2 in
  first.2 = dev1_bound ∧ second.2 = dev1_bound ∧
  first.1 = S_Activated (30 * day_us) "monthly" ∧
  second.1 = S_Expired (30 * day_us) ∧
  first.1 ≠ second.1.
Proof. vm_compute. repeat split; congruence. Qed.

(** C7, amended.  [check_status] never changes the store, and its answer
    is determined by the store, the device id and the side of the binding's
    expiry on which the clock stands: a repeated call, with nothing written
    in between, answers as the first one did whenever the two clock
    readings are on the same side of [expires_at] (in particular when they
    are equal, or when the device has no binding). *)
Theorem check_status_read_only body now1 now2 s :
  (∀ b, devices s !! py_str (json_get body "machine_id") = Some b →
        (expires_at b > now1 ↔ expires_at b > now2)) →
  (check_status body now1 s).2 = s ∧
  check_status body now2 (check_status body now1 s).2 = check_status body now1 s.
Proof.
  intros Hside.
  assert ((check_status body now1 s).2 = s) as Hro.
  { unfold check_status. repeat (case_match; simpl; try done). }
  split; [done|]. rewrite Hro. unfold check_status.
  destruct (str_truthy _); simpl; [|done].
  destruct (devices s !! _) as [b|] eqn:Hb; [|done].
  specialize (Hside b eq_refl).
  repeat case_bool_decide; try done; tauto.
Qed.

Lemma check_status_read_only_witness :
  check_status (device_body "dev-1") (7 * day_us)
    (check_status (device_body "dev-1") (29 * day_us) dev1_bound).2
  = check_status (device_body "dev-1") (29 * day_us) dev1_bound.
Proof.
  apply (check_status_read_only (device_body "dev-1") (29 * day_us) (7 * day_us) dev1_bound).
  intros b Hb. vm_compute in Hb. injection Hb as <-. vm_compute. split; reflexivity.
Defined.

(** ** A request without machine_id (C9) *)

(** C9, as stated, fails for [activate]: a body with neither [machine_id]
    nor [code] is answered with the invalid-request error, through the
    test on [code] that shares the branch. *)
Lemma activate_empty_body_bad_request :
  (∅ : gmap string pyval) !! "machine_id" = None ∧
  activate default_config ∅ 0 five_monthly = (A_BadRequest, five_monthly).
Proof. split; [done|]. vm_compute. reflexivity. Qed.

Lemma py_str_none_truthy body :
  body !! "machine_id" = None →
  py_str (json_get body "machine_id") = "None" ∧
  str_truthy (py_str (json_get body "machine_id")) = true.
Proof. intros H. by rewrite (json_get_absent _ _ H). Qed.

(** C9, amended.  For a body without the [machine_id] field the device id
    becomes the string "None": [check_status] and the guard never answer
    invalid request and treat the call as one of device "None";
    [activate] answers invalid request exactly when [code] is missing or
    empty, and otherwise runs as for device "None", which it binds when
    the code is redeemable. *)
Theorem missing_machine_id_is_device_None body :
  body !! "machine_id" = None →
  (∀ now s,
     (check_status body now s).1 ≠ S_BadRequest ∧
     check_status body now s = check_status (device_body "None") now s) ∧
  (∀ now s,
     require_activated_device body now s ≠ G_BadRequest ∧
     require_activated_device body now s
       = require_activated_device (device_body "None") now s) ∧
  (∀ cfg now s,
     ((activate cfg body now s).1 = A_BadRequest
        ↔ py_truthy (json_get body "code") = false) ∧
     activate cfg body now s
       = activate cfg (<["machine_id" := PyStr "None"]> body) now s) ∧
  (∀ cfg now s expires,
     (activate cfg body now s).1 = A_Ok expires →
     ∃ b, devices (activate cfg body now s).2 !! "None" = Some b ∧
          expires_at b = expires).
Proof.
  intros Hnone. destruct (py_str_none_truthy _ Hnone) as [Hstr Htr].
  repeat split.
  - unfold check_status. rewrite Htr. simpl. repeat case_match; done.
  - unfold check_status. by rewrite device_body_machine_id, Hstr.
  - unfold require_activated_device. rewrite Htr. simpl. repeat case_match; done.
  - unfold require_activated_device. by rewrite device_body_machine_id, Hstr.
  - unfold activate, insert_device. rewrite Htr. simpl.
    destruct (json_get body "code") as [|code]; simpl; [done|].
    destruct (str_truthy code); simpl; [|done].
    intros Hr. repeat (case_match; simpl in *; try done).
  - unfold activate, insert_device. rewrite Htr. simpl.
    destruct (json_get body "code") as [|code]; simpl; [done|].
    intros ->. done.
  - unfold activate. rewrite json_get_insert, json_get_insert_ne by done.
    by rewrite Hstr.
  - intros cfg now s expires Hok.
    destruct (activate_success _ _ _ _ _ Hok)
      as (code & ci & d & _ & _ & _ & _ & _ & _ & _ & -> & ->).
    simpl. rewrite Hstr, lookup_insert_eq. by eexists.
Qed.

Lemma missing_machine_id_is_device_None_witness :
  let body : gmap string pyval := <["code" := PyStr "5E6F7A8B"]> ∅ in
  body !! "machine_id" = None ∧
  (check_status body 0 five_monthly).1 ≠ S_BadRequest ∧
  ∃ b, devices (activate default_config body 0 five_monthly).2 !! "None" = Some b ∧
       expires_at b = 30 * day_us.
Proof.
  intros body.
  assert (body !! "machine_id" = None) as Hnone by (vm_compute; reflexivity).
  destruct (missing_machine_id_is_device_None body Hnone) as (Hcs & _ & _ & Hbind).
  split; [exact Hnone|]. split; [apply Hcs|].
  apply (Hbind default_config 0 five_monthly). vm_compute. reflexivity.
Defined.

(** ** Unknown and used codes (C2) *)

Lemma activate_invalid_code cfg body now s code :
  str_truthy (py_str (json_get body "machine_id")) = true →
  json_get body "code" = PyStr code →
  str_truthy code = true →
  (codes s !! code = None ∨
   ∃ r u, codes s !! code = Some r ∧ used_by r = Some u ∧ str_truthy u = true) →
  activate cfg body now s = (A_InvalidCode, s).
Proof.
  intros Hm Hc Hct Hcode. unfold activate. rewrite Hm, Hc. simpl. rewrite Hct. simpl.
  destruct Hcode as [->|(r & u & -> & Hu & Hut)]; [done|].
  rewrite Hu. simpl. by rewrite Hut.
Qed.

(** C2, as stated, fails on two inputs.  With an empty device id the call
    for the code dev-1 has used is answered invalid request, not
    InvalidCode.  In a store where [used_by] holds the empty string the
    code counts as unused: the call succeeds and writes. *)
Lemma activate_used_code_other_answers :
  (∃ r, codes dev1_bound !! "1A2B3C4D" = Some r ∧ used_by r = Some "dev-1") ∧
  (activate default_config (activate_body "" "1A2B3C4D") 0 dev1_bound).1 = A_BadRequest ∧
  (activate default_config (activate_body "" "1A2B3C4D") 0 dev1_bound).1 ≠ A_InvalidCode ∧
  (∃ r, codes blank_used_by !! "C0DE0001" = Some r ∧ used_by r = Some "") ∧
  (activate default_config (activate_body "dev-2" "C0DE0001") 0 blank_used_by).1
    = A_Ok (30 * day_us) ∧
  (activate default_config (activate_body "dev-2" "C0DE0001") 0 blank_used_by).2
    ≠ blank_used_by.
Proof.
  split; [eexists; vm_compute; split; reflexivity|].
  split; [vm_compute; reflexivity|].
  split; [vm_compute; congruence|].
  split; [eexists; vm_compute; split; reflexivity|].
  split; [vm_compute; reflexivity|].
  intros Heq. apply (f_equal (λ s, devices s !! "dev-2")) in Heq.
  vm_compute in Heq. congruence.
Qed.

(** C2, amended.  For a call of [activate] with a non-empty device id and
    a non-empty code: when the code is not in the [codes] table, or its
    [used_by] holds a non-empty device id, the call answers InvalidCode
    and leaves the store as it was.  In particular, once a call has
    redeemed a code, a later call for the same code from any device
    answers InvalidCode. *)
Theorem activate_rejects_unknown_or_used_code cfg :
  (∀ body now s code,
     str_truthy (py_str (json_get body "machine_id")) = true →
     json_get body "code" = PyStr code →
     str_truthy code = true →
     (codes s !! code = None ∨
      ∃ r u, codes s !! code = Some r ∧ used_by r = Some u ∧ str_truthy u = true) →
     activate cfg body now s = (A_InvalidCode, s)) ∧
  (∀ body1 now1 s expires body2 now2,
     (activate cfg body1 now1 s).1 = A_Ok expires →
     json_get body2 "code" = json_get body1 "code" →
     str_truthy (py_str (json_get body2 "machine_id")) = true →
     activate cfg body2 now2 (activate cfg body1 now1 s).2
       = (A_InvalidCode, (activate cfg body1 now1 s).2)).
Proof.
  split; [apply activate_invalid_code|].
  intros body1 now1 s expires body2 now2 Hok Hcode Hm2.
  destruct (activate_success _ _ _ _ _ Hok)
    as (code & ci & d & Hm & Hc & Hct & Hci & Hu & Hd & Hp & -> & ->).
  apply activate_invalid_code with code; [done|congruence|done|].
  right. simpl. rewrite set_used_by_lookup, decide_True, Hci by done. simpl.
  by eexists _, _.
Qed.

Lemma activate_rejects_unknown_or_used_code_witness :
  activate default_config (activate_body "dev-2" "1A2B3C4D") (86400 * 1000000) dev1_bound
    = (A_InvalidCode, dev1_bound) ∧
  activate default_config (activate_body "dev-2" "FFFFFFFF") 0 dev1_bound
    = (A_InvalidCode, dev1_bound).
Proof.
  destruct (activate_rejects_unknown_or_used_code default_config) as [Hbad Hagain].
  split.
  - apply (Hagain (activate_body "dev-1" "1A2B3C4D") 0 five_monthly (30 * day_us));
      vm_compute; reflexivity.
  - apply (Hbad _ _ _ "FFFFFFFF"); [vm_compute; reflexivity..|].
    left. vm_compute. reflexivity.
Defined.

(** ** A device that is already bound (C3) *)

(** C3, as stated, fails: the code is looked at before the device, so a
    further call of a bound device with a used or unknown code answers
    InvalidCode, not AlreadyBound. *)
Lemma activate_bound_device_invalid_code :
  is_Some (devices dev1_bound !! "dev-1") ∧
  (activate default_config (activate_body "dev-1" "1A2B3C4D") 0 dev1_bound).1
    = A_InvalidCode ∧
  (activate default_config (activate_body "dev-1" "FFFFFFFF") 0 dev1_bound).1
    = A_InvalidCode ∧
  (activate default_config (activate_body "dev-1" "1A2B3C4D") 0 dev1_bound).1
    ≠ A_AlreadyBound.
Proof.
  split; [eexists; vm_compute; reflexivity|].
  split; [vm_compute; reflexivity|].
  split; [vm_compute; reflexivity|].
  vm_compute. congruence.
Qed.

(** C3, amended.  For a device that already has a binding, every further
    call of [activate] for it fails and leaves the store as it was; the
    answer is AlreadyBound when the call carries a code that exists and is
    unused (whatever its plan), and InvalidCode when the code is unknown or
    used.  No call of [activate], for this or any other device, replaces
    the binding: a device has at most one. *)
Theorem activate_bound_device_fails cfg body now s b :
  let m := py_str (json_get body "machine_id") in
  str_truthy m = true →
  devices s !! m = Some b →
  (activate cfg body now s).2 = s ∧
  (∀ expires, (activate cfg body now s).1 ≠ A_Ok expires) ∧
  (∀ code r,
     json_get body "code" = PyStr code → str_truthy code = true →
     codes s !! code = Some r → opt_truthy (used_by r) = false →
     (activate cfg body now s).1 = A_AlreadyBound) ∧
  (∀ code,
     json_get body "code" = PyStr code → str_truthy code = true →
     (codes s !! code = None ∨
      ∃ r, codes s !! code = Some r ∧ opt_truthy (used_by r) = true) →
     (activate cfg body now s).1 = A_InvalidCode) ∧
  (∀ body' now', devices (activate cfg body' now' s).2 !! m = Some b).
Proof.
  intros m Hm Hb.
  assert (∀ expires, (activate cfg body now s).1 ≠ A_Ok expires) as Hfail.
  { intros expires Hok.
    destruct (activate_success _ _ _ _ _ Hok) as (? & ? & ? & _ & _ & _ & _ & _ & Hd & _).
    fold m in Hd. congruence. }
  split; [by apply activate_failure|]. split; [done|]. repeat split.
  - intros code r Hc Hct Hr Hu. unfold activate. fold m.
    rewrite Hm, Hc. simpl. rewrite Hct. simpl. by rewrite Hr, Hu, Hb.
  - intros code Hc Hct Hcode. unfold activate. fold m.
    rewrite Hm, Hc. simpl. rewrite Hct. simpl.
    destruct Hcode as [->|(r & -> & ->)]; done.
  - intros body' now'.
    destruct (activate cfg body' now' s).1 as [| | | | |expires] eqn:Hr;
      try (rewrite activate_failure; [done | intros e; rewrite Hr; done]).
    destruct (activate_success _ _ _ _ _ Hr)
      as (code & ci & d & _ & _ & _ & _ & _ & Hd & _ & _ & ->).
    simpl. rewrite lookup_insert_ne; [done|]. intros Heq. congruence.
Qed.

Lemma activate_bound_device_fails_witness :
  (activate default_config (activate_body "dev-1" "5E6F7A8B") 0 dev1_bound).1
    = A_AlreadyBound ∧
  (activate default_config (activate_body "dev-1" "5E6F7A8B") 0 dev1_bound).2
    = dev1_bound.
Proof.
  destruct (activate_bound_device_fails default_config
              (activate_body "dev-1" "5E6F7A8B") 0 dev1_bound
              (new_binding "1A2B3C4D" "monthly" 0 (30 * day_us)))
    as (Hsame & _ & Hbound & _).
  - vm_compute. reflexivity.
  - vm_compute. reflexivity.
  - split; [|exact Hsame].
    apply (Hbound "5E6F7A8B" {| c_type := "monthly"; used_by := None |});
      vm_compute; reflexivity.
Defined.

(** ** The phonetic-group search (C8) *)

Section pydict_facts.
Context {V : Type}.
Implicit Types (d : list (string * V)) (k : string) (v : V).

Lemma dict_set_keys k v d :
  (dict_set k v d).*1 = if decide (k ∈ d.*1) then d.*1 else d.*1 ++ [k].
Proof.
  induction d as [|[k' v'] d IH]; csimpl.
  - done.
  - destruct (decide (k = k')) as [->|Hne]; csimpl.
    + rewrite decide_True; [done|]. by left.
    + rewrite IH. destruct (decide (k ∈ d.*1)) as [Hin|Hin].
      * rewrite decide_True; [done|]. by right.
      * rewrite decide_False; [done|]. by intros [?|?]%elem_of_cons.
Qed.

Lemma dict_set_NoDup k v d : NoDup d.*1 → NoDup (dict_set k v d).*1.
Proof.
  intros Hnd. rewrite dict_set_keys. case_decide as Hin; [done|].
  apply NoDup_app. split; [done|]. split.
  - intros x Hx [->|Hnil]%elem_of_cons; [done|]. inversion Hnil.
  - apply NoDup_singleton.
Qed.

Lemma dict_set_elem_of k v d kv :
  kv ∈ dict_set k v d → kv = (k, v) ∨ kv ∈ d.
Proof.
  induction d as [|[k' v'] d IH]; simpl.
  - intros [->|Hnil]%elem_of_cons; [by left|inversion Hnil].
  - destruct (decide (k = k')) as [->|Hne].
    + intros [->|Hin]%elem_of_cons; [by left|]. right. by right.
    + intros [->|Hin]%elem_of_cons; [right; by left|].
      destruct (IH Hin) as [->|Hd]; [by left|]. right. by right.
Qed.

Lemma dict_set_key_in k v d : k ∈ (dict_set k v d).*1.
Proof.
  rewrite dict_set_keys. case_decide; [done|]. apply elem_of_app. right. by left.
Qed.

Lemma dict_set_key_mono k v d k' : k' ∈ d.*1 → k' ∈ (dict_set k v d).*1.
Proof.
  intros Hin. rewrite dict_set_keys. case_decide; [done|]. apply elem_of_app. by left.
Qed.

Lemma dict_get_elem_of k v d : dict_get k d = Some v → (k, v) ∈ d.
Proof.
  induction d as [|[k' v'] d IH]; simpl; [done|].
  case_decide as Hk.
  - intros [= ->]. subst. by left.
  - intros Hget. right. by apply IH.
Qed.
End pydict_facts.

(** the dictionary comprehension of line 391, from any starting dictionary *)
Lemma unique_fold_facts (results : list entry) (d : list (string * entry)) :
  NoDup d.*1 →
  (∀ k e, (k, e) ∈ d → glyph e = k) →
  let d' := foldl (λ d item, dict_set (glyph item) item d) d results in
  NoDup d'.*1 ∧
  (∀ k e, (k, e) ∈ d' → glyph e = k) ∧
  (∀ k e, (k, e) ∈ d' → (k, e) ∈ d ∨ e ∈ results) ∧
  (∀ k, k ∈ d.*1 → k ∈ d'.*1) ∧
  (∀ e, e ∈ results → glyph e ∈ d'.*1).
Proof.
  revert d. induction results as [|item results IH]; intros d Hnd Hkey; simpl.
  - repeat split; try done. { intros; by left. } intros e He. inversion He.
  - destruct (IH (dict_set (glyph item) item d)) as (H1 & H2 & H3 & H4 & H5).
    { by apply dict_set_NoDup. }
    { intros k e [[= -> ->]|Hin]%dict_set_elem_of; [done|by apply Hkey]. }
    repeat split; try done.
    + intros k e Hin. destruct (H3 _ _ Hin) as [Hd|Hr]; [|right; by right].
      apply dict_set_elem_of in Hd as [[= -> ->]|Hd]; [right; by left|by left].
    + intros k Hin. by apply H4, dict_set_key_mono.
    + intros e [->|Hin]%elem_of_cons; [|by apply H5].
      apply H4, dict_set_key_in.
Qed.

Lemma unique_results_facts (results : list entry) :
  NoDup (glyph <$> unique_results results) ∧
  (∀ e, e ∈ unique_results results → e ∈ results) ∧
  (∀ e, e ∈ results → ∃ e', e' ∈ unique_results results ∧ glyph e' = glyph e).
Proof.
  destruct (unique_fold_facts results []) as (H1 & H2 & H3 & _ & H5).
  { constructor. } { intros k e Hin. inversion Hin. }
  unfold unique_results, dict_values.
  set (d' := foldl _ _ _) in *.
  assert (glyph <$> d'.*2 = d'.*1) as Hkeys.
  { clearbody d'. clear -H2. induction d' as [|[k e] d' IH]; [done|]. csimpl.
    rewrite IH; [|intros k' e' Hin; apply H2; by right].
    f_equal. apply H2. by left. }
  split; [by rewrite Hkeys|]. split.
  - intros e [[k e'] [-> Hin]]%list_elem_of_fmap. simpl.
    destruct (H3 _ _ Hin) as [Hnil|Hr]; [inversion Hnil|done].
  - intros e He. specialize (H5 e He).
    apply list_elem_of_fmap in H5 as [[k e'] [Hk Hin]]. simpl in Hk.
    exists e'. split.
    + apply list_elem_of_fmap. by exists (k, e').
    + rewrite Hk. by apply H2.
Qed.

Lemma unique_results_singleton e : unique_results [e] = [e].
Proof. done. Qed.

Lemma unique_fold_fresh (results : list entry) (d : list (string * entry)) :
  NoDup (d.*1 ++ (glyph <$> results)) →
  foldl (λ d item, dict_set (glyph item) item d) d results
    = d ++ ((λ e, (glyph e, e)) <$> results).
Proof.
  revert d. induction results as [|item results IH]; intros d Hnd; csimpl.
  - by rewrite app_nil_r.
  - assert (dict_set (glyph item) item d = d ++ [(glyph item, item)]) as ->.
    { apply NoDup_app in Hnd as (_ & Hdis & _).
      assert (glyph item ∉ d.*1) as Hfresh.
      { intros Hin. apply (Hdis _ Hin). by left. }
      clear -Hfresh. induction d as [|[k v] d IH]; [done|]. csimpl in *.
      apply not_elem_of_cons in Hfresh as [Hne Hfresh].
      rewrite decide_False by done. by rewrite IH. }
    rewrite IH.
    + by rewrite <- app_assoc.
    + rewrite fmap_app. csimpl. by rewrite <- app_assoc.
Qed.

Lemma unique_results_NoDup (results : list entry) :
  NoDup (glyph <$> results) → unique_results results = results.
Proof.
  intros Hnd. unfold unique_results, dict_values.
  rewrite unique_fold_fresh by done. csimpl.
  rewrite <- list_fmap_compose. apply list_fmap_id.
Qed.

Lemma in_group_true radical e :
  in_group radical e = true ↔ phonetic_radical e = Some radical ∨ glyph e = radical.
Proof.
  unfold in_group. rewrite orb_true_iff, !bool_decide_eq_true. done.
Qed.

(** C8, as stated, fails: for a key that is marked as a leader and also
    has a [groupOf] back-reference, the code takes the key itself as the
    leader and never looks at the back-reference.  The entry 奴 is a
    radical and has the radical 女: the search returns the group led by
    奴, the resolution worded in the specification the group led by 女. *)
Lemma phonetic_group_leader_precedence :
  dict_get "奴" sample_dictionary = Some e_nu ∧
  group_leader sample_dictionary "奴" = Some "奴" ∧
  group_leader_spec sample_dictionary "奴" = Some "女" ∧
  advanced_search_phonetic_group sample_dictionary "奴" = [e_nu; e_nu4; e_nu3] ∧
  phonetic_group_spec sample_dictionary "奴" = [e_nv; e_nu] ∧
  advanced_search_phonetic_group sample_dictionary "奴"
    ≠ phonetic_group_spec sample_dictionary "奴".
Proof. vm_compute. repeat split; congruence. Qed.

(** C8, amended.  For a key present in the dictionary the leader is the
    key itself when its entry is marked as a phonetic radical, and the
    entry's [phonetic_radical] back-reference otherwise.  With a non-empty
    leader the search returns entries of the dictionary that have the
    leader as their back-reference or as their glyph, one for every glyph
    of such an entry (all of them, in dictionary order, when no two entries
    share a glyph); with no leader it returns the entry of the key alone.
    No two returned entries share a glyph. *)
Theorem phonetic_group_search dictionary_data query e :
  dict_get query dictionary_data = Some e →
  let leader := if is_phonetic_radical e then Some query else phonetic_radical e in
  let res := advanced_search_phonetic_group dictionary_data query in
  group_leader dictionary_data query = leader ∧
  NoDup (glyph <$> res) ∧
  (∀ radical, leader = Some radical → str_truthy radical = true →
     (∀ x, x ∈ res →
        x ∈ dict_values dictionary_data ∧
        (phonetic_radical x = Some radical ∨ glyph x = radical)) ∧
     (∀ x, x ∈ dict_values dictionary_data →
        phonetic_radical x = Some radical ∨ glyph x = radical →
        ∃ y, y ∈ res ∧ glyph y = glyph x) ∧
     (NoDup (glyph <$> dict_values dictionary_data) →
        res = filter (λ x, in_group radical x = true) (dict_values dictionary_data))) ∧
  (opt_truthy leader = false → res = [e]).
Proof.
  intros Hget leader res.
  assert (group_leader dictionary_data query = leader) as Hleader.
  { unfold group_leader. rewrite Hget. simpl. by destruct (is_phonetic_radical e). }
  split; [done|]. split; [apply unique_results_facts|]. split.
  - intros radical Hrad Htr.
    assert (res = unique_results
                    (filter (λ x, in_group radical x = true) (dict_values dictionary_data)))
      as Hres.
    { subst res. unfold advanced_search_phonetic_group, phonetic_group_results.
      by rewrite Hleader, Hrad, Htr. }
    rewrite Hres.
    destruct (unique_results_facts
                (filter (λ x, in_group radical x = true) (dict_values dictionary_data)))
      as (_ & Hsub & Hall).
    split; [|split].
    + intros x Hx. apply Hsub, list_elem_of_filter in Hx as [Hg Hx].
      split; [done|]. by apply in_group_true.
    + intros x Hx Hg. apply Hall, list_elem_of_filter. split; [|done].
      by apply in_group_true.
    + intros Hnd. apply unique_results_NoDup.
      eapply sublist_NoDup; [exact Hnd|]. apply fmap_sublist, sublist_filter.
  - intros Hfalse. subst res.
    unfold advanced_search_phonetic_group, phonetic_group_results.
    rewrite Hleader, Hget. destruct leader as [radical|]; simpl in *; [|done].
    by rewrite Hfalse.
Qed.

Lemma phonetic_group_search_witness :
  advanced_search_phonetic_group sample_dictionary "怒" = [e_nu; e_nu4; e_nu3].
Proof.
  destruct (phonetic_group_search sample_dictionary "怒" e_nu4) as (_ & _ & Hgroup & _).
  { vm_compute. reflexivity. }
  destruct (Hgroup "奴") as (_ & _ & Hall).
  { vm_compute. reflexivity. } { vm_compute. reflexivity. }
  rewrite Hall.
  - vm_compute. reflexivity.
  - apply (bool_decide_unpack _). vm_compute. reflexivity.
Defined.

(** ** One code, several devices (C1) *)

Lemma run_step cfg i rest sys sys' :
  system_step cfg i sys = Some sys' → run cfg (i :: rest) sys = run cfg rest sys'.
Proof.
  intros H.
  change (run cfg (i :: rest) sys) with (run cfg rest (default sys (system_step cfg i sys))).
  by rewrite H.
Qed.

Lemma run_stuck cfg i rest sys :
  system_step cfg i sys = None → run cfg (i :: rest) sys = run cfg rest sys.
Proof.
  intros H.
  change (run cfg (i :: rest) sys) with (run cfg rest (default sys (system_step cfg i sys))).
  by rewrite H.
Qed.

(** one move of the schedule: a statement of the scheduled thread, or no
    move when that thread has finished *)
Ltac run_next tac :=
  first
    [ erewrite run_step;
      [|unfold system_step, thread_step, insert_device; simpl; tac; reflexivity]
    | rewrite run_stuck;
      [|unfold system_step, thread_step; simpl; tac; reflexivity] ].

(** A request that runs alone, from its first statement to its last, does
    what the handler function does. *)
Lemma thread_alone_is_activate cfg body now s :
  run cfg [0; 0; 0; 0; 0]%nat
      {| threads := [new_request body now];
         store := {| committed := s; writer := None |} |}
  = {| threads := [at_pc (new_request body now) (PcDone (activate cfg body now s).1)];
       store := {| committed := (activate cfg body now s).2; writer := None |} |}.
Proof.
  unfold activate, insert_device, new_request, at_pc.
  destruct (str_truthy (py_str (json_get body "machine_id"))) eqn:Hm; simpl;
    [|by do 5 run_next ltac:(rewrite ?Hm)].
  destruct (json_get body "code") as [|code] eqn:Hc; simpl;
    [by do 5 run_next ltac:(rewrite ?Hm, ?Hc)|].
  destruct (str_truthy code) eqn:Hct; simpl;
    [|by do 5 run_next ltac:(rewrite ?Hm, ?Hc; simpl; rewrite ?Hct)].
  destruct (codes s !! code) as [ci|] eqn:Hci; simpl;
    [|by do 5 run_next ltac:(rewrite ?Hm, ?Hc; simpl; rewrite ?Hct; simpl; rewrite ?Hci)].
  destruct (opt_truthy (used_by ci)) eqn:Hu; simpl;
    [by do 5 run_next
          ltac:(rewrite ?Hm, ?Hc; simpl; rewrite ?Hct; simpl; rewrite ?Hci, ?Hu)|].
  run_next ltac:(rewrite ?Hm, ?Hc; simpl; rewrite ?Hct; simpl; rewrite ?Hci, ?Hu).
  destruct (devices s !! py_str (json_get body "machine_id")) eqn:Hd; simpl;
    [by do 4 run_next ltac:(rewrite ?Hd)|].
  destruct (plan_duration cfg (c_type ci)) eqn:Hp; simpl;
    [|by do 4 run_next ltac:(rewrite ?Hd, ?Hp)].
  by do 4 run_next ltac:(rewrite ?Hd, ?Hp).
Qed.

(** Served one after another, the requests for one redeemable code get one
    success, the first, and InvalidCode for all the others. *)
Lemma serial_redemption cfg s code ci d m now reqs :
  codes s !! code = Some ci → opt_truthy (used_by ci) = false →
  str_truthy code = true → plan_duration cfg (c_type ci) = Some d →
  str_truthy m = true → devices s !! m = None →
  Forall (λ r, str_truthy r.1 = true) reqs →
  (activate_each cfg code ((m, now) :: reqs) s).1
    = A_Ok (now + d) :: replicate (length reqs) A_InvalidCode.
Proof.
  intros Hci Hu Hct Hp Hm Hd Hreqs. simpl.
  assert (activate cfg (activate_body m code) now s
          = (A_Ok (now + d),
             {| codes := set_used_by (Some m) code (codes s);
                devices := <[m := new_binding code (c_type ci) now d]> (devices s) |}))
    as Hfirst.
  { unfold activate, insert_device.
    rewrite activate_body_machine_id, activate_body_code. simpl.
    by rewrite Hm, Hct, Hci, Hu, Hd, Hp. }
  fold (activate_body m code). rewrite Hfirst.
  set (s1 := {| codes := _ |}).
  assert (∃ r u, codes s1 !! code = Some r ∧ used_by r = Some u ∧ str_truthy u = true)
    as Hused.
  { subst s1. simpl. rewrite set_used_by_lookup, decide_True, Hci by done.
    simpl. by eexists _, _. }
  clearbody s1. clear Hfirst.
  assert (activate_each cfg code reqs s1
          = (replicate (length reqs) A_InvalidCode, s1)) as ->; [|done].
  induction Hreqs as [|[m' now'] reqs Hm' _ IH]; [done|]. simpl.
  fold (activate_body m' code).
  rewrite (activate_invalid_code cfg _ now' s1 code).
  - by rewrite IH.
  - by rewrite activate_body_machine_id.
  - apply activate_body_code.
  - done.
  - by right.
Qed.

(** C1.  Of several concurrent redemptions of one code exactly one should
    succeed; the handler does not ensure it.  Two requests for one
    redeemable code, from two distinct devices without a binding, are
    served on two connections; when both have run their SELECTs (lines 326
    and 331) before either runs its UPDATE (line 347), both find the code
    unused, both write and commit, and both are answered with success.  The
    code row ends with the second device in [used_by] and both devices hold
    a binding made from the code. *)
Theorem concurrent_activation_redeems_twice cfg s code ci d m1 m2 now1 now2 :
  codes s !! code = Some ci → opt_truthy (used_by ci) = false →
  str_truthy code = true → plan_duration cfg (c_type ci) = Some d →
  str_truthy m1 = true → str_truthy m2 = true → m1 ≠ m2 →
  devices s !! m1 = None → devices s !! m2 = None →
  let final := run cfg racing_schedule (two_requests s code m1 m2 now1 now2) in
  answer <$> threads final = [Some (A_Ok (now1 + d)); Some (A_Ok (now2 + d))] ∧
  store final =
    {| committed :=
         {| codes := set_used_by (Some m2) code (codes s);
            devices := <[m2 := new_binding code (c_type ci) now2 d]>
                         (<[m1 := new_binding code (c_type ci) now1 d]> (devices s)) |};
       writer := None |}.
Proof.
  intros Hci Hu Hct Hp Hm1 Hm2 Hne Hd1 Hd2.
  unfold racing_schedule, two_requests, new_request.
  do 2 run_next
    ltac:(rewrite ?activate_body_machine_id, ?activate_body_code; simpl;
          rewrite ?Hm1, ?Hm2, ?Hct; simpl; rewrite ?Hci, ?Hu).
  do 2 run_next ltac:(rewrite ?Hd1, ?Hd2, ?Hp).
  do 3 run_next ltac:(rewrite ?Hd1).
  do 3 run_next ltac:(rewrite ?lookup_insert_ne, ?Hd2 by done).
  simpl. split; [done|]. f_equal. f_equal.
  apply map_eq. intros c. rewrite !set_used_by_lookup.
  case_decide; [|done]. by destruct (codes s !! c).
Qed.

Lemma concurrent_activation_redeems_twice_witness :
  let final := run default_config racing_schedule
                 (two_requests one_code "0F1E2D3C" "dev-1" "dev-2" 0 1) in
  answer <$> threads final
    = [Some (A_Ok (0 + 30 * day_us)); Some (A_Ok (1 + 30 * day_us))].
Proof.
  apply (concurrent_activation_redeems_twice default_config one_code "0F1E2D3C"
           {| c_type := "monthly"; used_by := None |} (30 * day_us)
           "dev-1" "dev-2" 0 1);
    vm_compute; (reflexivity || congruence).
Defined.

(** * Further properties of the handlers *)

(** ** Code generation *)

Lemma insert_codes_success plan tokens cs :
  is_Some (insert_codes plan tokens cs) ↔
  NoDup tokens ∧ ∀ t, t ∈ tokens → cs !! t = None.
Proof.
  revert cs. induction tokens as [|t ts IH]; intros cs; simpl.
  - split; [intros _; split; [constructor|intros t Ht; inversion Ht]|by eexists].
  - destruct (cs !! t) eqn:Ht.
    + split; [by intros [? ?]|]. intros [_ Hfresh].
      rewrite Hfresh in Ht by left. done.
    + rewrite IH. split.
      * intros [Hnd Hfresh]. split.
        -- constructor; [|done]. intros Hin. specialize (Hfresh t Hin).
           by rewrite lookup_insert_eq in Hfresh.
        -- intros t' [->|Hin]%elem_of_cons; [done|].
           specialize (Hfresh t' Hin).
           destruct (decide (t = t')) as [->|Hne]; [done|].
           by rewrite lookup_insert_ne in Hfresh.
      * intros [Hnd Hfresh]. apply NoDup_cons in Hnd as [Hnotin Hnd].
        split; [done|]. intros t' Hin. rewrite lookup_insert_ne.
        -- apply Hfresh. by right.
        -- intros ->. done.
Qed.

Lemma insert_codes_size plan tokens cs cs' :
  insert_codes plan tokens cs = Some cs' → size cs' = (size cs + length tokens)%nat.
Proof.
  revert cs. induction tokens as [|t ts IH]; intros cs; simpl.
  - intros [= <-]. lia.
  - destruct (cs !! t) eqn:Ht; [done|]. intros Hins.
    rewrite (IH _ Hins), map_size_insert_None by done. lia.
Qed.

(** X1.  For a logged-in administrator and a valid form, [manage] inserts
    the whole batch exactly when the drawn tokens are pairwise distinct and
    none is already a code; it then adds one unused row of the chosen plan
    per token and changes nothing else.  In every other case the store is
    left as it was. *)
Theorem manage_all_or_nothing cfg plan tokens s :
  generate_form_valid cfg (Z.of_nat (length tokens)) plan = true →
  let r := manage cfg true plan tokens s in
  (r.1 = M_Generated ↔ NoDup tokens ∧ ∀ t, t ∈ tokens → codes s !! t = None) ∧
  (r.1 = M_Generated →
     (∀ t, t ∈ tokens → codes r.2 !! t = Some {| c_type := plan; used_by := None |}) ∧
     (∀ c, c ∉ tokens → codes r.2 !! c = codes s !! c) ∧
     devices r.2 = devices s ∧
     size (codes r.2) = (size (codes s) + length tokens)%nat) ∧
  (r.1 ≠ M_Generated → r.1 = M_DbError ∧ r.2 = s).
Proof.
  intros Hvalid r. subst r. unfold manage. rewrite Hvalid. simpl.
  pose proof (insert_codes_success plan tokens (codes s)) as Hsucc.
  destruct (insert_codes plan tokens (codes s)) as [cs'|] eqn:Hins; simpl.
  - destruct (insert_codes_spec _ _ _ _ Hins) as [Hin Hout].
    split; [split; [intros _; apply Hsucc; eauto|done]|].
    split; [|done]. intros _. repeat split; [|done|by eapply insert_codes_size].
    intros t Ht. by apply Hin.
  - split; [split; [done|]|].
    + intros H. apply Hsucc in H as [? ?]. done.
    + split; done.
Qed.

Lemma manage_all_or_nothing_witness :
  (manage default_config true "monthly" five_codes empty_db).1 = M_Generated ∧
  (manage default_config true "monthly" ["1A2B3C4D"] five_monthly).2 = five_monthly.
Proof.
  split.
  - apply (manage_all_or_nothing default_config "monthly" five_codes empty_db).
    + vm_compute. reflexivity.
    + split; [apply (bool_decide_unpack _); vm_compute; reflexivity|].
      intros t _. apply lookup_empty.
  - apply (manage_all_or_nothing default_config "monthly" ["1A2B3C4D"] five_monthly).
    + vm_compute. reflexivity.
    + vm_compute. congruence.
Defined.



(** ** What a call leaves alone *)

Lemma activate_devices_other cfg body now s m' :
  py_str (json_get body "machine_id") ≠ m' →
  devices (activate cfg body now s).2 !! m' = devices s !! m'.
Proof.
  intros Hne.
  destruct (activate cfg body now s).1 as [| | | | |expires] eqn:Hr;
    try (rewrite activate_failure; [done | intros e; rewrite Hr; done]).
  destruct (activate_success _ _ _ _ _ Hr)
    as (code & ci & d & _ & _ & _ & _ & _ & _ & _ & _ & ->).
  simpl. by rewrite lookup_insert_ne.
Qed.

Lemma revoke_devices_other logged_in body s m' :
  json_get body "machine_id" ≠ PyStr m' →
  devices (revoke_authorization logged_in body s).2 !! m' = devices s !! m'.
Proof.
  intros Hne.
  destruct (revoke_authorization logged_in body s).1 eqn:Hr;
    try (rewrite revoke_failure; [done | by rewrite Hr]).
  destruct (revoke_success _ _ _ Hr) as (m & b & _ & Hm & _ & _ & ->).
  simpl. rewrite lookup_delete_ne; [done|]. intros ->. done.
Qed.

Lemma check_status_by_binding body now s s' :
  devices s' !! py_str (json_get body "machine_id")
    = devices s !! py_str (json_get body "machine_id") →
  (check_status body now s').1 = (check_status body now s).1 ∧
  require_activated_device body now s' = require_activated_device body now s.
Proof.
  intros Heq. unfold check_status, require_activated_device. rewrite Heq.
  repeat (case_match; simpl; try done).
Qed.

(** X3.  A call of [activate], [revoke_authorization] or [manage] made for
    one device changes nothing for any other device: the other device's
    binding, its [check_status] answer and the guard's verdict on it are
    what they were before the call. *)
Theorem other_devices_unaffected cfg body' now' s :
  let m' := py_str (json_get body' "machine_id") in
  (∀ body now, py_str (json_get body "machine_id") ≠ m' →
     let s1 := (activate cfg body now s).2 in
     devices s1 !! m' = devices s !! m' ∧
     (check_status body' now' s1).1 = (check_status body' now' s).1 ∧
     require_activated_device body' now' s1 = require_activated_device body' now' s) ∧
  (∀ logged_in body, json_get body "machine_id" ≠ PyStr m' →
     let s1 := (revoke_authorization logged_in body s).2 in
     devices s1 !! m' = devices s !! m' ∧
     (check_status body' now' s1).1 = (check_status body' now' s).1 ∧
     require_activated_device body' now' s1 = require_activated_device body' now' s) ∧
  (∀ logged_in plan tokens,
     let s1 := (manage cfg logged_in plan tokens s).2 in
     devices s1 = devices s ∧
     (check_status body' now' s1).1 = (check_status body' now' s).1 ∧
     require_activated_device body' now' s1 = require_activated_device body' now' s).
Proof.
  intros m'. split; [|split].
  - intros body now Hne s1.
    assert (devices s1 !! m' = devices s !! m') as Heq
      by by apply activate_devices_other.
    split; [done|]. by apply check_status_by_binding.
  - intros logged_in body Hne s1.
    assert (devices s1 !! m' = devices s !! m') as Heq
      by by apply revoke_devices_other.
    split; [done|]. by apply check_status_by_binding.
  - intros logged_in plan tokens s1.
    assert (devices s1 = devices s) as Heq.
    { subst s1. by destruct (manage_effect cfg logged_in plan tokens s)
        as [->|(cs' & _ & ->)]. }
    split; [done|]. apply check_status_by_binding. by rewrite Heq.
Qed.

Lemma other_devices_unaffected_witness :
  (check_status (device_body "dev-1") (86400 * 1000000)
     (activate default_config (activate_body "dev-2" "5E6F7A8B") 7 dev1_bound).2).1
  = (check_status (device_body "dev-1") (86400 * 1000000) dev1_bound).1.
Proof.
  destruct (other_devices_unaffected default_config (device_body "dev-1")
              (86400 * 1000000) dev1_bound) as (Hact & _).
  apply (Hact (activate_body "dev-2" "5E6F7A8B") 7). vm_compute. congruence.
Defined.

(** X4.  After a call of [revoke_authorization] by a logged-in
    administrator for a non-empty device id, the device has no binding,
    whether it had one (answer ok) or not (answer not found, store
    unchanged): [check_status] answers unactivated and the guard answers
    unauthorized, at any instant. *)
Theorem revoked_device_is_unactivated m s now :
  str_truthy m = true →
  let r := revoke_authorization true (device_body m) s in
  (r.1 = R_Ok ↔ is_Some (devices s !! m)) ∧
  (r.1 = R_NotFound ↔ devices s !! m = None) ∧
  (devices s !! m = None → r.2 = s) ∧
  check_status (device_body m) now r.2 = (S_Unactivated, r.2) ∧
  require_activated_device (device_body m) now r.2 = G_Unauthorized.
Proof.
  intros Hm r. subst r. unfold revoke_authorization, check_status, require_activated_device.
  rewrite !device_body_machine_id. simpl. rewrite Hm. simpl.
  destruct (devices s !! m) as [b|] eqn:Hb; simpl.
  - rewrite lookup_delete_eq. repeat split; try done; try (by intros [? ?]); eauto.
  - rewrite Hb. repeat split; try done; try (by intros [? ?]); eauto.
Qed.

Lemma revoked_device_is_unactivated_witness :
  check_status (device_body "dev-1") 5
    (revoke_authorization true (device_body "dev-1") dev1_bound).2
  = (S_Unactivated, (revoke_authorization true (device_body "dev-1") dev1_bound).2).
Proof.
  apply (revoked_device_is_unactivated "dev-1" dev1_bound 5). vm_compute. reflexivity.
Defined.

(** ** Invariants of the reachable stores *)

(** X5.  In every reachable store a binding has a non-empty device id and
    code, carries the plan of its code row, and satisfies
    [expires_at = activated_at + days * one day] for the non-zero number
    of days the configuration gives that plan. *)
Theorem reachable_binding_expiry cfg s m b :
  reachable cfg s →
  devices s !! m = Some b →
  m ≠ "" ∧ activation_code b ≠ "" ∧
  (∃ r, codes s !! activation_code b = Some r ∧ c_type r = card_type b) ∧
  ∃ days, CARD_DURATIONS cfg !! card_type b = Some days ∧ days ≠ 0 ∧
          expires_at b = activated_at b + days * day_us.
Proof.
  intros [Hdev _]%reachable_inv Hb.
  destruct (Hdev _ _ Hb) as (Hm & Hc & (r & Hr1 & _ & Hr3) & (d & Hp & He)).
  apply str_truthy_true in Hm, Hc. repeat split; [done..|by eauto|].
  unfold plan_duration in Hp.
  destruct (CARD_DURATIONS cfg !! card_type b) as [days|]; [|done].
  case_bool_decide; [done|]. simplify_eq. by exists days.
Qed.

Lemma reachable_binding_expiry_witness :
  ∃ days, CARD_DURATIONS default_config !! "monthly" = Some days ∧ days ≠ 0 ∧
          30 * day_us = 0 + days * day_us.
Proof.
  apply (reachable_binding_expiry default_config dev1_bound "dev-1"
           (new_binding "1A2B3C4D" "monthly" 0 (30 * day_us))).
  - exact dev1_bound_reachable.
  - vm_compute. reflexivity.
Defined.




(** X7.  No handler removes a code or changes its plan: a code row present
    before a call of [activate], [revoke_authorization] or [manage] is
    present after it with the same plan type. *)
Theorem codes_are_never_removed cfg s c r :
  codes s !! c = Some r →
  (∀ body now, ∃ r', codes (activate cfg body now s).2 !! c = Some r' ∧ c_type r' = c_type r) ∧
  (∀ logged_in body,
     ∃ r', codes (revoke_authorization logged_in body s).2 !! c = Some r' ∧
           c_type r' = c_type r) ∧
  (∀ logged_in plan tokens,
     codes (manage cfg logged_in plan tokens s).2 !! c = Some r).
Proof.
  intros Hc. split; [|split].
  - intros body now.
    destruct (activate cfg body now s).1 as [| | | | |expires] eqn:Hr;
      try (rewrite activate_failure; [by eauto | intros e; rewrite Hr; done]).
    destruct (activate_success _ _ _ _ _ Hr)
      as (code & ci & d & _ & _ & _ & _ & _ & _ & _ & _ & ->).
    simpl. rewrite set_used_by_lookup. case_decide; rewrite Hc; simpl; eauto.
  - intros logged_in body.
    destruct (revoke_authorization logged_in body s).1 eqn:Hr;
      try (rewrite revoke_failure; [by eauto | by rewrite Hr]).
    destruct (revoke_success _ _ _ Hr) as (m & b & _ & _ & _ & _ & ->).
    simpl. destruct (str_truthy (activation_code b)); [|by eauto].
    rewrite set_used_by_lookup. case_decide; rewrite Hc; simpl; eauto.
  - intros logged_in plan tokens.
    destruct (manage_effect cfg logged_in plan tokens s) as [->|(cs' & Hins & ->)];
      [done|].
    destruct (insert_codes_spec _ _ _ _ Hins) as [Hin Hout]. simpl.
    destruct (decide (c ∈ tokens)) as [Ht|Ht].
    + destruct (Hin _ Ht) as [Hnone _]. by rewrite Hnone in Hc.
    + by rewrite Hout.
Qed.

Lemma codes_are_never_removed_witness :
  ∃ r', codes (revoke_authorization true (device_body "dev-1") dev1_bound).2
          !! "1A2B3C4D" = Some r' ∧
        c_type r' = "monthly".
Proof.
  destruct (codes_are_never_removed default_config dev1_bound "1A2B3C4D"
              {| c_type := "monthly"; used_by := Some "dev-1" |}) as (_ & Hrev & _).
  - vm_compute. reflexivity.
  - apply (Hrev true (device_body "dev-1")).
Defined.

(** ** Expired bindings and serial redemption *)

(** X8.  Expiry does not free a device.  Once [check_status] answers
    expired for a device, no call of [activate], by this device or any
    other, with any code, renews or replaces its binding: a call for the
    device itself fails and writes nothing, and at every later instant
    [check_status] still answers expired with the same expiry.  Only a
    revocation removes the binding. *)
Theorem expired_device_stays_expired cfg body now1 now2 s expires :
  (check_status body now1 s).1 = S_Expired expires →
  now1 <= now2 →
  (∀ body' now',
     (check_status body now2 (activate cfg body' now' s).2).1 = S_Expired expires) ∧
  (∀ body' now',
     py_str (json_get body' "machine_id") = py_str (json_get body "machine_id") →
     (activate cfg body' now' s).2 = s ∧
     ((activate cfg body' now' s).1 = A_BadRequest ∨
      (activate cfg body' now' s).1 = A_InvalidCode ∨
      (activate cfg body' now' s).1 = A_AlreadyBound)).
Proof.
  unfold check_status.
  destruct (str_truthy (py_str (json_get body "machine_id"))) eqn:Hm; simpl; [|done].
  destruct (devices s !! py_str (json_get body "machine_id")) as [b|] eqn:Hb; [|done].
  case_bool_decide as Hexp; simpl; [done|]. intros [= <-] Hle.
  assert (∀ body' now',
    devices (activate cfg body' now' s).2 !! py_str (json_get body "machine_id") = Some b)
    as Hkeep.
  { intros body' now'.
    destruct (activate cfg body' now' s).1 as [| | | | |e] eqn:Hr;
      try (rewrite activate_failure; [done | intros e'; rewrite Hr; done]).
    destruct (activate_success _ _ _ _ _ Hr)
      as (code & ci & d & _ & _ & _ & _ & _ & Hd & _ & _ & ->).
    simpl. rewrite lookup_insert_ne; [done|]. intros Heq. congruence. }
  split.
  - intros body' now'. rewrite Hkeep. by rewrite bool_decide_false by lia.
  - intros body' now' Hsame.
    assert (∀ e, (activate cfg body' now' s).1 ≠ A_Ok e) as Hfail.
    { intros e Hok.
      destruct (activate_success _ _ _ _ _ Hok) as (? & ? & ? & _ & _ & _ & _ & _ & Hd & _).
      rewrite Hsame in Hd. congruence. }
    split; [by apply activate_failure|].
    pose proof (activate_never_storage_error cfg body' now' s) as Hse.
    destruct (activate cfg body' now' s).1 eqn:Hr; try tauto; exfalso.
    + revert Hr. unfold activate, insert_device. rewrite Hsame.
      repeat (case_match; simpl; try done); congruence.
    + by eapply Hfail.
Qed.

Lemma expired_device_stays_expired_witness :
  (activate default_config (activate_body "dev-1" "5E6F7A8B") (31 * day_us) dev1_bound).2
  = dev1_bound.
Proof.
  destruct (expired_device_stays_expired default_config (device_body "dev-1")
              (30 * day_us) (31 * day_us) dev1_bound (30 * day_us))
    as [_ Hlocked].
  - vm_compute. reflexivity.
  - vm_compute. congruence.
  - apply (Hlocked (activate_body "dev-1" "5E6F7A8B") (31 * day_us)).
    vm_compute. reflexivity.
Defined.



(** ** The guard and the content endpoints *)

(** X10.  The guard and [check_status] agree on every request and store:
    the guard passes exactly when [check_status] answers activated,
    refuses as unauthorized exactly when it answers unactivated, as
    expired exactly when it answers expired, and as invalid exactly when
    it does.  Hence [get_identities] and [advanced_search] run their
    handler exactly for the requests [check_status] would answer activated
    at that instant, and answer the guard's refusal for all others. *)
Theorem guard_agrees_with_check_status body now s :
  let g := require_activated_device body now s in
  let st := (check_status body now s).1 in
  (g = G_Pass ↔ ∃ expires plan, st = S_Activated expires plan) ∧
  (g = G_Unauthorized ↔ st = S_Unactivated) ∧
  (g = G_Expired ↔ ∃ expires, st = S_Expired expires) ∧
  (g = G_BadRequest ↔ st = S_BadRequest) ∧
  (∀ lower ix,
     (g = G_Pass →
        get_identities ix body now s = get_identities_body ix body ∧
        advanced_search lower ix body now s = advanced_search_body lower ix body) ∧
     (g ≠ G_Pass →
        get_identities ix body now s = C_Refused g ∧
        advanced_search lower ix body now s = C_Refused g)).
Proof.
  intros g st. subst g st.
  unfold get_identities, advanced_search, guarded, check_status, require_activated_device.
  destruct (str_truthy (py_str (json_get body "machine_id"))); simpl.
  - destruct (devices s !! py_str (json_get body "machine_id")) as [b|]; simpl.
    + repeat case_bool_decide; try lia; simpl;
        repeat split; try done; try (by intros (? & ?)); try (by intros (? & ? & ?));
        eauto.
    + repeat split; try done; try (by intros (? & ?)); try (by intros (? & ? & ?)).
  - repeat split; try done; try (by intros (? & ?)); try (by intros (? & ? & ?)).
Qed.

Lemma glyph_of_dict_get (d : list (string * entry)) k e :
  (∀ k' e', (k', e') ∈ d → glyph e' = k') → dict_get k d = Some e → glyph e = k.
Proof. intros Hwf Hget. by apply Hwf, dict_get_elem_of. Qed.

Lemma dict_get_value (d : list (string * entry)) k e :
  dict_get k d = Some e → e ∈ dict_values d.
Proof.
  intros Hget%dict_get_elem_of. unfold dict_values.
  apply list_elem_of_fmap. by exists (k, e).
Qed.

Lemma identity_request_fields m i :
  json_get (identity_request m i) "search_type" = PyStr (id_type i) ∧
  json_get (identity_request m i) "query" = PyStr (id_query i).
Proof.
  unfold identity_request. split.
  - rewrite json_get_insert_ne by done. apply json_get_insert.
  - rewrite !json_get_insert_ne by done. apply json_get_insert.
Qed.

(** X11.  In a dictionary whose entries carry their key as [glyph], every
    identity that [get_identities] offers for a character leads somewhere:
    sent back to [advanced_search] by an activated device, as main.py does
    on a click, it is answered with a list of results that holds an entry
    for that very character. *)
Theorem offered_identity_finds_entry lower ix body m now s ids i :
  (∀ k e, (k, e) ∈ dictionary_data ix → glyph e = k) →
  require_activated_device (identity_request m i) now s = G_Pass →
  get_identities_body ix body = C_Identities ids →
  i ∈ ids →
  ∃ results e,
    advanced_search lower ix (identity_request m i) now s = C_Results results ∧
    e ∈ results ∧ json_get body "char" = PyStr (glyph e).
Proof.
  intros Hwf Hpass Hids Hi.
  unfold advanced_search, guarded. rewrite Hpass.
  unfold get_identities_body in Hids.
  destruct (json_get body "char") as [|char]; [done|].
  destruct (dict_get char (dictionary_data ix)) as [entry|] eqn:Hget; [|done].
  pose proof (glyph_of_dict_get _ _ _ Hwf Hget) as Hglyph.
  pose proof (dict_get_value _ _ _ Hget) as Hval.
  assert (i = {| id_type := "definition"; id_query := char;
                 id_label := "查看“" +:+ char +:+ "”的定义" |} ∨
          (i = {| id_type := "phonetic_group"; id_query := char;
                  id_label := "查看“" +:+ char +:+ "”所属的形声字组" |} ∧
           is_phonetic_radical entry || opt_truthy (phonetic_radical entry) = true))
    as [->|[-> Hgroup]].
  { destruct (is_phonetic_radical entry || opt_truthy (phonetic_radical entry));
      injection Hids as <-.
    - apply elem_of_cons in Hi as [->|Hi]; [by left|].
      apply list_elem_of_singleton in Hi as ->. by right.
    - apply list_elem_of_singleton in Hi as ->. by left. }
  - exists [entry], entry. unfold advanced_search_body.
    destruct (identity_request_fields m
                {| id_type := "definition"; id_query := char;
                   id_label := "查看“" +:+ char +:+ "”的定义" |}) as [-> ->].
    simpl. rewrite Hget. simpl.
    split; [done|]. split; [by left|by rewrite Hglyph].
  - assert (∃ e, e ∈ unique_results (phonetic_group_results (dictionary_data ix) char) ∧
                 glyph e = char) as (e & He & Hge).
    { destruct (unique_results_facts (phonetic_group_results (dictionary_data ix) char))
        as (_ & _ & Hall).
      destruct (Hall entry) as (e & He & Hge); [|exists e; split; [done|congruence]].
      unfold phonetic_group_results, group_leader. rewrite Hget. simpl.
      destruct (is_phonetic_radical entry) eqn:Hrad; simpl in *.
      - destruct (str_truthy char); [|by left].
        apply list_elem_of_filter. split; [|done]. apply in_group_true. by right.
      - destruct (phonetic_radical entry) as [radical|] eqn:Hpr; simpl in *; [|done].
        rewrite Hgroup. apply list_elem_of_filter. split; [|done].
        apply in_group_true. by left. }
    exists (unique_results (phonetic_group_results (dictionary_data ix) char)), e.
    unfold advanced_search_body.
    destruct (identity_request_fields m
                {| id_type := "phonetic_group"; id_query := char;
                   id_label := "查看“" +:+ char +:+ "”所属的形声字组" |}) as [-> ->].
    simpl. split; [done|]. split; [done|by rewrite Hge].
Qed.

Lemma offered_identity_finds_entry_witness :
  ∃ results e,
    advanced_search ascii_lower sample_indexes
      (identity_request "dev-1"
         {| id_type := "phonetic_group"; id_query := "奴";
            id_label := "查看“奴”所属的形声字组" |}) 0 dev1_bound
      = C_Results results ∧
    e ∈ results ∧
    json_get (<["char" := PyStr "奴"]> (device_body "dev-1")) "char" = PyStr (glyph e).
Proof.
  apply (offered_identity_finds_entry ascii_lower sample_indexes
           (<["char" := PyStr "奴"]> (device_body "dev-1")) "dev-1" 0 dev1_bound
           [{| id_type := "definition"; id_query := "奴"; id_label := "查看“奴”的定义" |};
            {| id_type := "phonetic_group"; id_query := "奴";
               id_label := "查看“奴”所属的形声字组" |}]).
  - intros k e Hin.
    assert (Forall (λ kv : string * entry, glyph kv.2 = kv.1)
                   (dictionary_data sample_indexes)) as Hall
      by (apply (bool_decide_unpack _); vm_compute; reflexivity).
    by apply (proj1 (Forall_forall _ _) Hall (k, e)).
  - vm_compute. reflexivity.
  - vm_compute. reflexivity.
  - right. left.
Defined.

(** ** The indexes built at start *)

Section index_facts.
Context {V : Type}.

Lemma dict_get_append (k t : string) (v : V) (d : list (string * list V)) :
  default [] (dict_get t (dict_append k v d))
  = default [] (dict_get t d) ++ (if decide (t = k) then [v] else []).
Proof.
  induction d as [|[k' vs] d IH]; simpl.
  - by destruct (decide (t = k)).
  - destruct (decide (k = k')) as [->|Hne]; simpl.
    + destruct (decide (t = k')); simpl; [done|]. by rewrite app_nil_r.
    + destruct (decide (t = k')) as [->|Hne']; simpl.
      * rewrite decide_False by done. by rewrite app_nil_r.
      * apply IH.
Qed.

Lemma dict_get_append_each (t : string) (v : V) (ks : list string)
    (d : list (string * list V)) :
  default [] (dict_get t (foldl (λ c k, dict_append k v c) d ks))
  = default [] (dict_get t d) ++ ((λ _, v) <$> filter (λ k, k = t) ks).
Proof.
  revert d. induction ks as [|k ks IH]; intros d; simpl.
  - by rewrite app_nil_r.
  - rewrite IH, dict_get_append, <- app_assoc. f_equal.
    rewrite filter_cons. destruct (decide (t = k)) as [->|Hne].
    + by rewrite decide_True.
    + by rewrite decide_False.
Qed.
End index_facts.

(** the entries a row contributes under class tag [t], one per occurrence
    of [t] in its [char_type] *)
Lemma index_row_char_type lower ix row t :
  default [] (dict_get t (char_type_index (index_row lower ix row)))
  = default [] (dict_get t (char_type_index ix))
    ++ ((λ _, row.2) <$> filter (λ k, k = t) (char_type row.2)).
Proof. unfold index_row. simpl. apply dict_get_append_each. Qed.

Lemma index_row_pinyin lower ix row p :
  default [] (dict_get p (pinyin_index (index_row lower ix row)))
  = default [] (dict_get p (pinyin_index ix))
    ++ (if decide (p = lower (pinyin row.2) ∧ p ≠ "") then [row.2] else []).
Proof.
  unfold index_row. simpl.
  destruct (str_truthy (lower (pinyin row.2))) eqn:Htr.
  - rewrite dict_get_append. f_equal. apply str_truthy_true in Htr.
    destruct (decide (p = lower (pinyin row.2))) as [->|Hne].
    + by rewrite decide_True.
    + rewrite decide_False; [done|]. by intros [? ?].
  - apply str_truthy_false in Htr. rewrite decide_False, app_nil_r; [done|].
    intros [-> Hne]. done.
Qed.

(** X12.  [build_indexes] files every row where the searches look for it.
    Under a class tag the index lists, in row order, the entry of each row
    that carries the tag in [char_type] (once per occurrence of the tag);
    under a case-folded pronunciation it lists, in row order, the entries
    whose folded [pinyin] is that non-empty string; an empty pronunciation
    is never a key.  The dictionary itself holds the rows, the last row
    winning for a repeated glyph. *)
Theorem build_indexes_contents lower rows :
  let ix := build_indexes lower rows in
  (∀ t, default [] (dict_get t (char_type_index ix))
        = rows ≫= λ row, (λ _, row.2) <$> filter (λ k, k = t) (char_type row.2)) ∧
  (∀ p, default [] (dict_get p (pinyin_index ix))
        = (filter (λ row, p = lower (pinyin row.2) ∧ p ≠ "") rows).*2) ∧
  dict_get "" (pinyin_index ix) = None ∧
  dictionary_data ix = build_dictionary rows.
Proof.
  intros ix. subst ix. unfold build_indexes, build_dictionary.
  assert (∀ ix0,
    (∀ t, default [] (dict_get t (char_type_index (foldl (index_row lower) ix0 rows)))
          = default [] (dict_get t (char_type_index ix0))
            ++ (rows ≫= λ row, (λ _, row.2) <$> filter (λ k, k = t) (char_type row.2))) ∧
    (∀ p, default [] (dict_get p (pinyin_index (foldl (index_row lower) ix0 rows)))
          = default [] (dict_get p (pinyin_index ix0))
            ++ (filter (λ row, p = lower (pinyin row.2) ∧ p ≠ "") rows).*2) ∧
    (dict_get "" (pinyin_index ix0) = None →
     dict_get "" (pinyin_index (foldl (index_row lower) ix0 rows)) = None) ∧
    dictionary_data (foldl (index_row lower) ix0 rows)
      = foldl (λ d row, dict_set row.1 row.2 d) (dictionary_data ix0) rows) as Hgen.
  { induction rows as [|row rows IH]; intros ix0; simpl.
    - repeat split; intros; by rewrite ?app_nil_r.
    - destruct (IH (index_row lower ix0 row)) as (Hc & Hp & He & Hd).
      repeat split.
      + intros t. rewrite Hc, index_row_char_type, <- app_assoc. done.
      + intros p. rewrite Hp, index_row_pinyin, <- app_assoc. f_equal.
        rewrite filter_cons. by destruct (decide _).
      + intros Hnone. apply He. unfold index_row. simpl.
        destruct (str_truthy (lower (pinyin row.2))) eqn:Htr; [|done].
        clear -Hnone Htr. induction (pinyin_index ix0) as [|[k vs] d IHd]; simpl in *.
        * rewrite decide_False; [done|]. intros Heq. by rewrite <- Heq in Htr.
        * destruct (decide ("" = k)) as [<-|Hne]; [done|].
          destruct (decide (lower (pinyin row.2) = k)) as [Heq|Hne']; simpl;
            rewrite decide_False by done; [done|by apply IHd].
      + by rewrite Hd. }
  destruct (Hgen empty_indexes) as (Hc & Hp & He & Hd).
  split; [intros t; by rewrite Hc|]. split; [intros p; by rewrite Hp|].
  split; [by apply He|done].
Qed.

Lemma elem_of_tagged (rows : list (string * entry)) t e :
  e ∈ (rows ≫= λ row, (λ _, row.2) <$> filter (λ k, k = t) (char_type row.2))
  ↔ e ∈ rows.*2 ∧ t ∈ char_type e.
Proof.
  rewrite list_elem_of_bind. split.
  - intros (row & Hin & Hrow). apply list_elem_of_fmap in Hin as (k & -> & Hk).
    apply list_elem_of_filter in Hk as [-> Hk]. split; [|done].
    apply list_elem_of_fmap. by exists row.
  - intros [(row & -> & Hrow)%list_elem_of_fmap Ht]. exists row. split; [|done].
    apply list_elem_of_fmap. exists t. split; [done|].
    by apply list_elem_of_filter.
Qed.

(** X13.  Searches over the indexes [build_indexes] made from the rows.
    By class tag, the answer holds only entries of rows carrying the tag,
    and an entry for the glyph of every such row.  By pronunciation, query
    and [pinyin] are compared case-folded: the answer holds only entries
    whose folded [pinyin] is the folded query, and an entry for the glyph
    of every such row unless the folded query is empty.  In both answers
    no two entries share a glyph.  A pronunciation search without a query
    string is a server error; a class search without one is empty. *)
Theorem search_by_tag_and_pronunciation lower rows body :
  let ix := build_indexes lower rows in
  (json_get body "search_type" = PyStr "char_type" →
     (∀ q, json_get body "query" = PyStr q →
        ∃ results,
          advanced_search_body lower ix body = C_Results results ∧
          NoDup (glyph <$> results) ∧
          (∀ e, e ∈ results → e ∈ rows.*2 ∧ q ∈ char_type e) ∧
          (∀ e, e ∈ rows.*2 → q ∈ char_type e →
             ∃ e', e' ∈ results ∧ glyph e' = glyph e)) ∧
     (json_get body "query" = PyNone →
        advanced_search_body lower ix body = C_Results [])) ∧
  (json_get body "search_type" = PyStr "pinyin" →
     (∀ q, json_get body "query" = PyStr q →
        ∃ results,
          advanced_search_body lower ix body = C_Results results ∧
          NoDup (glyph <$> results) ∧
          (∀ e, e ∈ results → e ∈ rows.*2 ∧ lower (pinyin e) = lower q) ∧
          (∀ e, e ∈ rows.*2 → lower (pinyin e) = lower q → lower q ≠ "" →
             ∃ e', e' ∈ results ∧ glyph e' = glyph e)) ∧
     (json_get body "query" = PyNone →
        advanced_search_body lower ix body = C_ServerError)).
Proof.
  intros ix.
  destruct (build_indexes_contents lower rows) as (Hc & Hp & _ & _). fold ix in Hc, Hp.
  split.
  - intros Hty. unfold advanced_search_body. rewrite Hty. simpl. split.
    + intros q ->. rewrite Hc. eexists. split; [done|].
      destruct (unique_results_facts
                  (rows ≫= λ row, (λ _, row.2) <$> filter (λ k, k = q) (char_type row.2)))
        as (Hnd & Hsub & Hall).
      split; [done|]. split.
      * intros e He. by apply elem_of_tagged, Hsub.
      * intros e He Hq. by apply Hall, elem_of_tagged.
    + by intros ->.
  - intros Hty. unfold advanced_search_body. rewrite Hty. simpl. split.
    + intros q ->. rewrite Hp. eexists. split; [done|].
      destruct (unique_results_facts
                  (filter (λ row, lower q = lower (pinyin row.2) ∧ lower q ≠ "") rows).*2)
        as (Hnd & Hsub & Hall).
      split; [done|]. split.
      * intros e He. apply Hsub, list_elem_of_fmap in He as (row & -> & Hrow).
        apply list_elem_of_filter in Hrow as [[Heq _] Hrow]. split; [|done].
        apply list_elem_of_fmap. by exists row.
      * intros e (row & -> & Hrow)%list_elem_of_fmap Heq Hne. apply Hall.
        apply list_elem_of_fmap. exists row. split; [done|].
        by apply list_elem_of_filter.
    + by intros ->.
Qed.

Lemma search_by_tag_and_pronunciation_witness :
  ∃ results,
    advanced_search_body ascii_lower sample_indexes
      (<["search_type" := PyStr "pinyin"]> (<["query" := PyStr "NU"]> ∅))
      = C_Results results ∧
    NoDup (glyph <$> results).
Proof.
  destruct (search_by_tag_and_pronunciation ascii_lower sample_rows
              (<["search_type" := PyStr "pinyin"]> (<["query" := PyStr "NU"]> ∅)))
    as [_ Hpin].
  destruct Hpin as [Hq _]; [vm_compute; reflexivity|].
  destruct (Hq "NU") as (results & Hres & Hnd & _); [vm_compute; reflexivity|].
  exists results. split; [exact Hres|exact Hnd].
Defined.

(** ** The final deduplication *)

Lemma dict_set_elem_of_ne {V : Type} k (v : V) d kv :
  NoDup d.*1 → kv ∈ dict_set k v d → kv = (k, v) ∨ (kv ∈ d ∧ kv.1 ≠ k).
Proof.
  induction d as [|[k' v'] d IH]; csimpl; intros Hnd.
  - intros [->|Hnil]%elem_of_cons; [by left|inversion Hnil].
  - apply NoDup_cons in Hnd as [Hnotin Hnd].
    destruct (decide (k = k')) as [->|Hne].
    + intros [->|Hin]%elem_of_cons; [by left|]. right. split; [by right|].
      intros Heq. apply Hnotin. rewrite <- Heq.
      apply list_elem_of_fmap. by exists kv.
    + intros [->|Hin]%elem_of_cons.
      * right. split; [by left|]. simpl. congruence.
      * destruct (IH Hnd Hin) as [->|[Hd Hk]]; [by left|]. right. split; [by right|done].
Qed.

Lemma unique_fold_last (results seen : list entry) (d : list (string * entry)) :
  NoDup d.*1 →
  (∀ k e, (k, e) ∈ d →
     glyph e = k ∧ ∃ l1 l2, seen = l1 ++ e :: l2 ∧ k ∉ glyph <$> l2) →
  ∀ k e, (k, e) ∈ foldl (λ d item, dict_set (glyph item) item d) d results →
    glyph e = k ∧ ∃ l1 l2, seen ++ results = l1 ++ e :: l2 ∧ k ∉ glyph <$> l2.
Proof.
  revert seen d. induction results as [|item results IH]; intros seen d Hnd Hinv; simpl.
  - intros k e Hin. rewrite app_nil_r. by apply Hinv.
  - intros k e Hin.
    replace (seen ++ item :: results) with ((seen ++ [item]) ++ results)
      by (by rewrite <- app_assoc).
    apply (IH (seen ++ [item]) (dict_set (glyph item) item d)); [|clear Hin k e|done].
    + by apply dict_set_NoDup.
    + intros k e Hin.
      apply dict_set_elem_of_ne in Hin as [[= -> ->]|[Hin Hne]]; [| |done].
      * split; [done|]. exists seen, []. split; [done|]. inversion 1.
      * destruct (Hinv _ _ Hin) as (Hg & l1 & l2 & -> & Hk). split; [done|].
        exists l1, (l2 ++ [item]). split; [by rewrite <- app_assoc|].
        rewrite fmap_app. intros [?|Hi]%elem_of_app; [done|].
        apply list_elem_of_singleton in Hi. simpl in Hne. congruence.
Qed.

(** X14.  The deduplication applied to every search answer keeps, for each
    glyph, the last of the results carrying it; it is idempotent, leaves a
    list without repeated glyphs as it is, and never lengthens a list. *)
Theorem unique_results_keeps_last (results : list entry) :
  (∀ e, e ∈ unique_results results →
     ∃ l1 l2, results = l1 ++ e :: l2 ∧ glyph e ∉ glyph <$> l2) ∧
  unique_results (unique_results results) = unique_results results ∧
  (NoDup (glyph <$> results) → unique_results results = results) ∧
  (length (unique_results results) ≤ length results)%nat.
Proof.
  split; [|split; [|split]].
  - intros e (kv & -> & Hin)%list_elem_of_fmap. destruct kv as [k e].
    destruct (unique_fold_last results [] [] (NoDup_nil_2) ltac:(by inversion 1) k e Hin)
      as (Hg & l1 & l2 & Heq & Hk).
    exists l1, l2. simpl in *. split; [done|]. by rewrite Hg.
  - apply unique_results_NoDup, unique_results_facts.
  - apply unique_results_NoDup.
  - destruct (unique_results_facts results) as (Hnd & Hsub & _).
    rewrite <- (length_fmap glyph (unique_results results)), <- (length_fmap glyph results).
    apply submseteq_length, NoDup_submseteq; [done|].
    intros g (e & -> & He)%list_elem_of_fmap.
    apply list_elem_of_fmap. exists e. split; [done|by apply Hsub].
Qed.

(** ** The administrator's password *)

Lemma hex_char_facts (c : Ascii.ascii) :
  let n := Ascii.N_of_ascii c in
  is_space (hex_digit (n / 16)) = false ∧
  hex_value (hex_digit (n / 16)) = Some (n / 16)%N ∧
  hex_value (hex_digit (n mod 16)) = Some (n mod 16)%N ∧
  Ascii.ascii_of_N (16 * (n / 16) + n mod 16) = c ∧
  hex_digit (n / 16) ≠ dollar ∧ hex_digit (n mod 16) ≠ dollar.
Proof.
  destruct c as [[] [] [] [] [] [] [] []]; vm_compute; repeat split; congruence.
Qed.

Lemma bytes_fromhex_hex (b : list Ascii.ascii) : bytes_fromhex (bytes_hex b) = Some b.
Proof.
  induction b as [|c b IH]; [done|].
  destruct (hex_char_facts c) as (Hsp & Htop & Hbot & Hback & _).
  cbn [bytes_hex bytes_fromhex]. cbv zeta in *.
  rewrite Hsp, Htop, Hbot, IH. simpl. by rewrite Hback.
Qed.

Lemma str_split_length sep s :
  length (str_split sep s)
  = S (length (filter (λ c, c = sep) (String.list_ascii_of_string s))).
Proof.
  induction s as [|c s IH]; [done|]. simpl. rewrite filter_cons.
  destruct (decide (c = sep)) as [->|Hne]; simpl.
  - by rewrite IH.
  - destruct (str_split sep s) as [|h t]; [done|]. by rewrite <- IH.
Qed.

Lemma str_split_hex (b : list Ascii.ascii) :
  str_split dollar (bytes_hex b) = [bytes_hex b].
Proof.
  induction b as [|c b IH]; [done|].
  destruct (hex_char_facts c) as (_ & _ & _ & _ & Hd1 & Hd2).
  cbn [bytes_hex str_split]. cbv zeta in *.
  rewrite !decide_False by done. by rewrite IH.
Qed.

Lemma append_cons c (s t : string) : String c s +:+ t = String c (s +:+ t).
Proof. done. Qed.

Lemma str_split_hex_dollar (b : list Ascii.ascii) (rest : string) :
  str_split dollar (bytes_hex b +:+ String dollar rest)
  = bytes_hex b :: str_split dollar rest.
Proof.
  induction b as [|c b IH].
  - change (str_split dollar (String dollar rest) = "" :: str_split dollar rest).
    cbn [str_split]. by rewrite decide_True.
  - destruct (hex_char_facts c) as (_ & _ & _ & _ & Hd1 & Hd2).
    cbn [bytes_hex]. cbv zeta in *. rewrite !append_cons. cbn [str_split].
    rewrite !decide_False by done. by rewrite IH.
Qed.

(** X15.  [verify_password] accepts nothing unless the stored hash holds
    exactly one dollar sign; with the empty hash of an installation whose
    administrator password was never set, no password verifies. *)
Theorem verify_password_needs_one_dollar pbkdf2 stored_hash :
  length (filter (λ c, c = dollar) (String.list_ascii_of_string stored_hash)) ≠ 1%nat →
  ∀ provided_password, verify_password pbkdf2 stored_hash provided_password = false.
Proof.
  intros Hcount pw. unfold verify_password.
  pose proof (str_split_length dollar stored_hash) as Hlen.
  destruct (str_split dollar stored_hash) as [|s1 [|s2 [|s3 l]]]; try done.
  simpl in Hlen. congruence.
Qed.

Lemma verify_password_needs_one_dollar_witness :
  verify_password sample_kdf "" "changeme" = false.
Proof.
  apply (verify_password_needs_one_dollar sample_kdf "").
  vm_compute. congruence.
Defined.

(** X16.  A hash printed by create_admin.py verifies in [verify_password]
    for the password it was made from, whatever the salt; any other
    password verifies against it exactly when the key derivation maps it,
    under that salt, to the same key. *)
Theorem created_hash_verifies pbkdf2 password password_confirm salt stored_hash :
  create_admin_password_hash pbkdf2 password password_confirm salt = Some stored_hash →
  password = password_confirm ∧ password ≠ "" ∧
  verify_password pbkdf2 stored_hash password = true ∧
  ∀ other,
    verify_password pbkdf2 stored_hash other = true
    ↔ pbkdf2 (String.list_ascii_of_string other) salt
      = pbkdf2 (String.list_ascii_of_string password) salt.
Proof.
  unfold create_admin_password_hash.
  case_bool_decide as Heq; simpl; [|done].
  destruct (str_truthy password) eqn:Htr; simpl; [|done].
  intros [= <-]. split; [done|]. split; [by apply str_truthy_true|].
  assert (∀ other,
    verify_password pbkdf2
      (bytes_hex salt +:+
       String dollar (bytes_hex (pbkdf2 (String.list_ascii_of_string password) salt)))
      other
    = bool_decide (pbkdf2 (String.list_ascii_of_string password) salt
                   = pbkdf2 (String.list_ascii_of_string other) salt)) as Hver.
  { intros other. unfold verify_password.
    rewrite str_split_hex_dollar, str_split_hex, !bytes_fromhex_hex. done. }
  split.
  - rewrite Hver. by apply bool_decide_eq_true.
  - intros other. rewrite Hver, bool_decide_eq_true. split; congruence.
Qed.

Lemma created_hash_verifies_witness :
  verify_password sample_kdf "ab$736563726574ab" "secret" = true.
Proof.
  destruct (created_hash_verifies sample_kdf "secret" "secret"
              [Ascii.ascii_of_N 171] "ab$736563726574ab") as (_ & _ & Hok & _).
  - vm_compute. reflexivity.
  - exact Hok.
Defined.

Lemma admin_step_logged_out pbkdf2 cfg stored_hash req s :
  (∀ pw, req = Req_login (Some pw) → verify_password pbkdf2 stored_hash pw = false) →
  admin_step pbkdf2 cfg stored_hash (false, s) req = (false, s).
Proof.
  intros Hpw. destruct req as [[pw|]| |plan tokens|body]; simpl; try done.
  unfold login. by rewrite Hpw.
Qed.

(** X17.  The administrator's endpoints do nothing for a browser that has
    not logged in: as long as none of the passwords it submits verifies,
    any sequence of login, logout, code-generation and revocation requests
    leaves the session logged out and the store untouched.  That is the
    case for every sequence when the stored hash does not hold exactly one
    dollar sign, as when no administrator password was set. *)
Theorem admin_requests_need_login pbkdf2 cfg stored_hash s :
  (∀ reqs,
     (∀ pw, Req_login (Some pw) ∈ reqs → verify_password pbkdf2 stored_hash pw = false) →
     admin_run pbkdf2 cfg stored_hash reqs (false, s) = (false, s)) ∧
  (length (filter (λ c, c = dollar) (String.list_ascii_of_string stored_hash)) ≠ 1%nat →
   ∀ reqs, admin_run pbkdf2 cfg stored_hash reqs (false, s) = (false, s)).
Proof.
  assert (∀ reqs,
     (∀ pw, Req_login (Some pw) ∈ reqs → verify_password pbkdf2 stored_hash pw = false) →
     admin_run pbkdf2 cfg stored_hash reqs (false, s) = (false, s)) as Hgen.
  { unfold admin_run. induction reqs as [|req reqs IH]; intros Hpw; [done|]. simpl.
    rewrite admin_step_logged_out.
    - apply IH. intros pw Hin. apply Hpw. by right.
    - intros pw ->. apply Hpw. by left. }
  split; [done|]. intros Hcount reqs. apply Hgen. intros pw _.
  unfold verify_password.
  pose proof (str_split_length dollar stored_hash) as Hlen.
  destruct (str_split dollar stored_hash) as [|s1 [|s2 [|s3 l]]]; try done.
  simpl in Hlen. congruence.
Qed.

Lemma admin_requests_need_login_witness :
  admin_run sample_kdf default_config ""
    [Req_login (Some "changeme"); Req_manage "monthly" ["AAAA0000"];
     Req_revoke (device_body "dev-1")]
    (false, dev1_bound)
  = (false, dev1_bound).
Proof.
  destruct (admin_requests_need_login sample_kdf default_config "" dev1_bound)
    as [_ Hunset].
  apply Hunset. vm_compute. congruence.
Defined.

(** ** The listing of codes *)

Lemma insert_code_desc_perm x l : insert_code_desc x l ≡ₚ x :: l.
Proof.
  induction l as [|y l IH]; simpl; [done|].
  destruct (String.ltb x.1 y.1); [|done]. rewrite IH. apply Permutation_swap.
Qed.

Lemma order_by_code_desc_perm l : order_by_code_desc l ≡ₚ l.
Proof.
  induction l as [|x l IH]; simpl; [done|].
  rewrite insert_code_desc_perm. by constructor.
Qed.

Lemma string_ltb_asym a b : String.ltb a b = true → String.ltb b a = false.
Proof.
  unfold String.ltb. rewrite (String.compare_antisym b a).
  by destruct (String.compare a b).
Qed.

(** by decreasing key: no row is followed by a row with a greater key *)
Lemma order_by_code_desc_sorted l :
  Sorted (λ a b : string * code_row, String.ltb a.1 b.1 = false) (order_by_code_desc l).
Proof.
  induction l as [|x l IH]; simpl; [constructor|].
  induction IH as [|y l' Hsorted IH' Hhd]; simpl; [repeat constructor|].
  destruct (String.ltb x.1 y.1) eqn:Hlt.
  - constructor; [done|].
    destruct l' as [|z l']; simpl in *.
    + constructor. by apply string_ltb_asym.
    + destruct (String.ltb x.1 z.1).
      * constructor. by inversion Hhd.
      * constructor. by apply string_ltb_asym.
  - constructor; [by constructor|]. by constructor.
Qed.

Lemma Sorted_drop_take {A : Type} (R : relation A) (n k : nat) (l : list A) :
  Sorted R l → Sorted R (take k (drop n l)).
Proof.
  intros Hs.
  assert (Sorted R (drop n l)) as Hd.
  { revert n. induction Hs as [|x l Hs IH Hhd]; intros [|n]; simpl;
      [constructor..|by constructor|apply IH]. }
  clear Hs. revert k. induction Hd as [|x l' Hs IH Hhd]; intros [|k]; simpl;
    [constructor..|].
  constructor; [apply IH|]. destruct Hhd; destruct k; simpl; by constructor.
Qed.

Lemma limit_offset_page {A : Type} (per_page offset : Z) (l : list A) :
  0 <= per_page →
  limit_offset per_page offset l = take (Z.to_nat per_page) (drop (Z.to_nat offset) l).
Proof. intros H. unfold limit_offset. by rewrite bool_decide_false by lia. Qed.

Lemma management_data_codes_page like p per_page code_search show_unused s :
  0 < per_page → 1 <= p → p * per_page <= 9223372036854775807 →
  management_data_codes like true p per_page code_search show_unused s
  = MD_Codes
      (take (Z.to_nat per_page)
         (drop (Z.to_nat (p - 1) * Z.to_nat per_page)
            (order_by_code_desc
               (filter (λ row, code_matches like code_search show_unused row = true)
                  (map_to_list (codes s))))))
      (Z.of_nat (length (filter (λ row, code_matches like code_search show_unused row = true)
                           (map_to_list (codes s)))))
      p per_page.
Proof.
  intros Hpos Hp Hmax. unfold management_data_codes, int64. simpl.
  rewrite !bool_decide_true by nia. simpl.
  rewrite limit_offset_page by lia. do 4 f_equal. nia.
Qed.

(** X18.  The listing of codes, for a logged-in administrator and a
    positive page size.  Every page reports the same total, the number of
    rows that pass the filter, and holds at most a page of such rows, by
    decreasing code.  The pages 1 to n, one after the other, are the first
    n pages' worth of the filtered rows in decreasing order; once n pages
    cover the total they hold each filtered row exactly once. *)
Theorem listing_pages like per_page code_search show_unused s (n : nat) :
  0 < per_page → Z.of_nat n * per_page <= 9223372036854775807 →
  let matching := filter (λ row, code_matches like code_search show_unused row = true)
                         (map_to_list (codes s)) in
  let page p := management_data_codes like true p per_page code_search show_unused s in
  (∀ p, 1 <= p <= Z.of_nat n →
     ∃ items,
       page p = MD_Codes items (Z.of_nat (length matching)) p per_page ∧
       Z.of_nat (length items) <= per_page ∧
       Sorted (λ a b : string * code_row, String.ltb a.1 b.1 = false) items ∧
       ∀ c row, (c, row) ∈ items →
         codes s !! c = Some row ∧ code_matches like code_search show_unused (c, row) = true) ∧
  mjoin ((λ p, listing_items (page (Z.of_nat p))) <$> seq 1 n)
    = take (n * Z.to_nat per_page) (order_by_code_desc matching) ∧
  (Z.of_nat (length matching) <= Z.of_nat n * per_page →
   mjoin ((λ p, listing_items (page (Z.of_nat p))) <$> seq 1 n) ≡ₚ matching).
Proof.
  intros Hpos Hmax matching page.
  assert (∀ p, 1 <= p <= Z.of_nat n →
    page p = MD_Codes
               (take (Z.to_nat per_page)
                  (drop (Z.to_nat (p - 1) * Z.to_nat per_page) (order_by_code_desc matching)))
               (Z.of_nat (length matching)) p per_page) as Hpage.
  { intros p Hp. subst page. apply management_data_codes_page; [done|lia|nia]. }
  split; [|split].
  - intros p Hp. eexists. split; [by apply Hpage|]. split; [|split].
    + rewrite length_take. lia.
    + apply Sorted_drop_take, order_by_code_desc_sorted.
    + intros c row Hin.
      apply subseteq_take, subseteq_drop in Hin.
      rewrite order_by_code_desc_perm in Hin.
      apply list_elem_of_filter in Hin as [Hm Hin].
      by apply elem_of_map_to_list in Hin.
  - clear Hmax. revert Hpage. generalize (order_by_code_desc matching) as sorted.
    intros sorted Hpage.
    assert (∀ k, (k ≤ n)%nat →
      mjoin ((λ p, listing_items (page (Z.of_nat p))) <$> seq 1 k)
      = take (k * Z.to_nat per_page) sorted) as Hk; [|by apply Hk].
    induction k as [|k IH]; intros Hle; [done|].
    rewrite seq_S, fmap_app, join_app, IH by lia. simpl.
    rewrite Hpage by lia. simpl. rewrite app_nil_r.
    replace (Z.to_nat (Z.of_nat (S k) - 1)) with k by lia.
    rewrite take_take_drop. f_equal. lia.
  - intros Hcover.
    assert (mjoin ((λ p, listing_items (page (Z.of_nat p))) <$> seq 1 n)
            = take (n * Z.to_nat per_page) (order_by_code_desc matching)) as ->.
    { clear Hcover Hmax. revert Hpage. generalize (order_by_code_desc matching) as sorted.
      intros sorted Hpage.
      assert (∀ k, (k ≤ n)%nat →
        mjoin ((λ p, listing_items (page (Z.of_nat p))) <$> seq 1 k)
        = take (k * Z.to_nat per_page) sorted) as Hk; [|by apply Hk].
      induction k as [|k IH]; intros Hle; [done|].
      rewrite seq_S, fmap_app, join_app, IH by lia. simpl.
      rewrite Hpage by lia. simpl. rewrite app_nil_r.
      replace (Z.to_nat (Z.of_nat (S k) - 1)) with k by lia.
      rewrite take_take_drop. f_equal. lia. }
    rewrite take_ge; [apply order_by_code_desc_perm|].
    rewrite order_by_code_desc_perm. nia.
Qed.

Lemma listing_pages_witness :
  mjoin ((λ p, listing_items
                 (management_data_codes (λ _ _, false) true (Z.of_nat p) 2 "" true
                    five_monthly)) <$> seq 1 3)
  ≡ₚ filter (λ row, code_matches (λ _ _, false) "" true row = true)
            (map_to_list (codes five_monthly)).
Proof.
  apply (listing_pages (λ _ _, false) 2 "" true five_monthly 3);
    vm_compute; congruence.
Defined.




(** ** Request statistics *)

Lemma sum_counts_app l1 l2 : sum_counts (l1 ++ l2) = sum_counts l1 + sum_counts l2.
Proof. induction l1 as [|x l1 IH]; simpl; [done|]. rewrite IH. lia. Qed.

Lemma sum_counts_perm l1 l2 : l1 ≡ₚ l2 → sum_counts l1 = sum_counts l2.
Proof. induction 1; simpl; lia. Qed.

Lemma sum_counts_nonneg l : Forall (λ c, 0 < c) l → 0 <= sum_counts l.
Proof. induction 1; simpl; lia. Qed.

Lemma counter_increment_sum k (d : list (string * Z)) :
  sum_counts (dict_set k (default 0 (dict_get k d) + 1) d).*2 = sum_counts d.*2 + 1.
Proof.
  induction d as [|[k' v'] d IH]; csimpl; [done|].
  destruct (decide (k = k')) as [->|Hne]; csimpl; [lia|]. rewrite IH. lia.
Qed.

Lemma counter_increment_positive k (d : list (string * Z)) :
  Forall (λ c, 0 < c) d.*2 →
  Forall (λ c, 0 < c) (dict_set k (default 0 (dict_get k d) + 1) d).*2.
Proof.
  induction d as [|[k' v'] d IH]; csimpl; intros Hpos.
  - repeat constructor.
  - apply Forall_cons in Hpos as [Hv Hpos].
    destruct (decide (k = k')) as [->|Hne]; csimpl.
    + constructor; [lia|done].
    + constructor; [done|by apply IH].
Qed.

Lemma insert_by_count_perm x l : insert_by_count x l ≡ₚ x :: l.
Proof.
  induction l as [|y l IH]; simpl; [done|].
  case_bool_decide; [|done]. rewrite IH. apply Permutation_swap.
Qed.

Lemma most_common_all_perm (counts : list (string * Z)) :
  foldr insert_by_count [] counts ≡ₚ counts.
Proof.
  induction counts as [|x l IH]; simpl; [done|].
  rewrite insert_by_count_perm. by constructor.
Qed.

(** what [record_request_stats] keeps true of the statistics *)
Lemma record_request_stats_inv (endpoints : list (option string)) (st : stats) :
  total_requests st = sum_counts (endpoint_counts st).*2 →
  Forall (λ c, 0 < c) (endpoint_counts st).*2 →
  let st' := foldl (λ st e, record_request_stats e st) st endpoints in
  total_requests st' = sum_counts (endpoint_counts st').*2 ∧
  Forall (λ c, 0 < c) (endpoint_counts st').*2 ∧
  total_requests st'
    = total_requests st + Z.of_nat (length (filter (λ e, counted e = true) endpoints)).
Proof.
  revert st. induction endpoints as [|e endpoints IH]; intros st Hsum Hpos; simpl.
  - repeat split; [done..|lia].
  - destruct (IH (record_request_stats e st)) as (H1 & H2 & H3).
    + unfold record_request_stats. destruct (counted e); simpl; [|done].
      rewrite counter_increment_sum. lia.
    + unfold record_request_stats. destruct (counted e); simpl; [|done].
      by apply counter_increment_positive.
    + repeat split; [done..|]. rewrite H3, filter_cons.
      unfold record_request_stats.
      destruct (counted e) eqn:Hc; simpl; lia.
Qed.

(** X20.  The endpoint pie chart accounts for every counted request.
    After any sequence of requests, [total_requests] is the number of
    requests whose endpoint is not excluded, the numbers of the chart add
    up to it, every number is positive, and the chart has at most six
    slices, labels and numbers in step.  The endpoint that the dashboard
    polls, [monitoring_data], is not among the excluded ones: each poll is
    counted. *)
Theorem pie_chart_accounts_for_every_request (endpoints : list (option string)) :
  let st := foldl (λ st e, record_request_stats e st) no_stats endpoints in
  let pie := endpoint_pie_chart st in
  total_requests st = Z.of_nat (length (filter (λ e, counted e = true) endpoints)) ∧
  sum_counts pie.2 = total_requests st ∧
  Forall (λ c, 0 < c) pie.2 ∧
  length pie.1 = length pie.2 ∧
  (length pie.2 ≤ 6)%nat ∧
  counted (Some "monitoring_data") = true ∧ counted (Some "monitoring") = false.
Proof.
  intros st pie.
  destruct (record_request_stats_inv endpoints no_stats) as (Hsum & Hpos & Htotal);
    [done|constructor|]. fold st in Hsum, Hpos, Htotal.
  split; [by rewrite Htotal|].
  subst pie. unfold endpoint_pie_chart, most_common.
  set (sorted := foldr insert_by_count [] (endpoint_counts st)).
  assert (sorted ≡ₚ endpoint_counts st) as Hperm by apply most_common_all_perm.
  assert (total_requests st
          = sum_counts (take 5 sorted).*2 + sum_counts (drop 5 sorted).*2) as Hsplit.
  { rewrite Hsum, <- sum_counts_app, <- fmap_app, take_drop.
    apply sum_counts_perm. by rewrite Hperm. }
  assert (Forall (λ c, 0 < c) sorted.*2) as Hpos' by by rewrite Hperm.
  assert (Forall (λ c, 0 < c) (take 5 sorted).*2) as Htop.
  { rewrite fmap_take. by apply Forall_take. }
  assert (0 <= sum_counts (drop 5 sorted).*2) as Hrest.
  { apply sum_counts_nonneg. rewrite fmap_drop. by apply Forall_drop. }
  assert (length (take 5 sorted) ≤ 5)%nat as Hlen by (rewrite length_take; lia).
  case_bool_decide as Hother; simpl.
  - rewrite sum_counts_app. simpl. repeat split; try done; try lia.
    + apply Forall_app. split; [done|]. repeat constructor. lia.
    + by rewrite !length_app, !length_fmap.
    + rewrite length_app, length_fmap. simpl. lia.
  - repeat split; try done; try lia.
    + by rewrite !length_fmap.
    + rewrite length_fmap. lia.
Qed.

(** ** Plans of zero or negative length *)



(** ** A revoked code passes to another device *)



(** ** Two codes, one device, two connections *)


